(** * XmlFileSource: the range-claiming, tag-delimited record scanner

    A shallow embedding of [tools/nl_api/custom_sources.py] and the
    properties of its generator [XmlFileSource.tag_iterator].

    The source is Python 2.7 code (apache_beam's first Python SDK): a [str]
    is a byte string, and a [StopIteration] raised inside a generator body
    leaves the generator and is what the consumer's [for] loop reads as the
    ordinary end of the sequence. *)

From Stdlib Require Import Ascii String.
From Stdlib Require Import List Arith Bool Lia Sorted Permutation.
Import ListNotations.

Set Implicit Arguments.

(** ** Byte strings *)

Definition bytes := list ascii.

Definition newline : ascii := "010"%char.

Definition b (s : string) : bytes := list_ascii_of_string s.

(** A text line of an example file: [s] followed by a newline. *)
Definition ln (s : string) : bytes := b s ++ [newline].

(** [''.join(content)] *)
Definition join (content : list bytes) : bytes := concat content.

Fixpoint startswith (p s : bytes) : bool :=
  match p, s with
  | [], _ => true
  | _ :: _, [] => false
  | x :: p', y :: s' => Ascii.eqb x y && startswith p' s'
  end.

(** [p in s] on byte strings: [p] occurs in [s] as a plain substring. *)
Fixpoint contains (p s : bytes) : bool :=
  startswith p s ||
  match s with
  | [] => false
  | _ :: s' => contains p s'
  end.

(** ** The file object returned by [open_file]

    Only [seek], [tell] and [readline] are used.  A file is its content and
    the offset of the next byte to read. *)

Record File := mkFile { data : bytes; offset : nat }.

Definition seek (position : nat) (f : File) : File :=
  {| data := data f; offset := position |}.

Definition tell (f : File) : nat := offset f.

(** The bytes up to and including the first newline, or all of them when
    there is none. *)
Fixpoint take_line (s : bytes) : bytes :=
  match s with
  | [] => []
  | c :: s' => if Ascii.eqb c newline then [c] else c :: take_line s'
  end.

Definition unread (f : File) : bytes := skipn (offset f) (data f).

(** [f.readline()]: the empty string at the end of the file. *)
Definition readline (f : File) : bytes * File :=
  let line := take_line (unread f) in
  (line, {| data := data f; offset := offset f + length line |}).

(** ** The range tracker

    [tag_iterator] calls two methods of the tracker it is handed. *)

Class RangeTracker (T : Type) := {
  start_position : T -> option nat;
  try_claim : nat -> T -> bool * T
}.

(** [x or d] for an optional integer: [None] and [0] are falsy. *)
Definition py_or (x : option nat) (d : nat) : nat :=
  match x with
  | Some (S n) => S n
  | _ => d
  end.

(** Modelled from the spec: the offset range tracker of section 4.2, which
    is apache_beam's and not part of the repository.  A claim succeeds, and
    is recorded, iff the position lies in [[start, stop)] and is not below
    an earlier claimed position; a failed claim changes nothing. *)
Record OffsetRangeTracker := mkTracker {
  range_start : nat;
  range_stop : nat;
  last_claimed : option nat
}.

Definition offset_try_claim (position : nat) (t : OffsetRangeTracker)
  : bool * OffsetRangeTracker :=
  if (range_start t <=? position) && (position <? range_stop t)
     && match last_claimed t with
        | Some q => q <=? position
        | None => true
        end
  then (true, {| range_start := range_start t; range_stop := range_stop t;
                 last_claimed := Some position |})
  else (false, t).

#[global] Instance OffsetRangeTracker_tracker : RangeTracker OffsetRangeTracker := {
  start_position t := Some (range_start t);
  try_claim := offset_try_claim
}.

(** [pos] is not below the last claimed position. *)
Definition last_ok (last : option nat) (pos : nat) : Prop :=
  match last with
  | Some q => q <= pos
  | None => True
  end.

Definition OffsetRangeTracker_init (start stop : nat) : OffsetRangeTracker :=
  {| range_start := start; range_stop := stop; last_claimed := None |}.

(** ** XmlFileSource *)

Record XmlFileSource := { open_tag : bytes; close_tag : bytes }.

(** [__init__]: ['<{}>'.format(element)] and ['</{}>'.format(element)]. *)
Definition XmlFileSource_init (element : bytes) : XmlFileSource :=
  {| open_tag := b "<" ++ element ++ b ">";
     close_tag := b "</" ++ element ++ b ">" |}.

(** What a run does, in order. *)
Inductive event :=
| Seek (position : nat)
| Readline (position : nat) (line : bytes)
| TryClaim (position : nat) (claimed : bool)
| Yield (record : bytes).

Inductive exception := StopIteration | OtherError (name : string).

(** How the generator body is left.  [OutOfFuel] is the model's own: the
    loops below are bounded by a step counter, and
    [tag_iterator_terminates] shows the bound is never reached. *)
Inductive ending := Raise (e : exception) | OutOfFuel.

(** What the consumer that drains the generator sees at its end. *)
Inductive observation := EndOfSequence | Failure.

Definition observed (e : ending) : option observation :=
  match e with
  | Raise StopIteration => Some EndOfSequence
  | Raise (OtherError _) => Some Failure
  | OutOfFuel => None
  end.

Definition run := (list event * ending)%type.

Definition emit (e : event) (r : run) : run := (e :: fst r, snd r).

Definition events (r : run) : list event := fst r.

Fixpoint records_of (t : list event) : list bytes :=
  match t with
  | [] => []
  | Yield r :: t' => r :: records_of t'
  | _ :: t' => records_of t'
  end.

(** The records a run yields, in order. *)
Definition records (r : run) : list bytes := records_of (events r).

Section TagIterator.

Context {T : Type} `{RangeTracker T}.
Variable self : XmlFileSource.

(** The generator's locals that outlive a loop iteration: the file [f], the
    line generator [iterable_f] over that same file (it is finished once a
    [readline] came back empty) and the tracker. *)
Record State := mkState {
  f : File;
  iterable_f_finished : bool;
  offset_range_tracker : T
}.

(** One [next] of [_iterable_gcs(f)]: the line, if any, and the file after
    the read.  A finished generator does not touch the file again. *)
Definition _iterable_gcs (s : State) : list event * option bytes * State :=
  if iterable_f_finished s then ([], None, s)
  else
    let '(line, f') := readline (f s) in
    let e := [Readline (tell (f s)) line] in
    match line with
    | [] => (e, None, mkState f' true (offset_range_tracker s))
    | _ => (e, Some line, mkState f' false (offset_range_tracker s))
    end.

Definition emits (es : list event) (r : run) : run := (es ++ fst r, snd r).

(** The three loops of [tag_iterator], each bounded by [fuel]:
    [while_true] is the [while True:] of line 55, [for_open] the first
    [for line in iterable_f] with its [else], [for_close] the second. *)
Fixpoint while_true (fuel : nat) (s : State) : run :=
  match fuel with
  | O => ([], OutOfFuel)
  | S fuel =>
      let current_pos := tell (f s) in
      for_open fuel current_pos s
  end
with for_open (fuel : nat) (current_pos : nat) (s : State) : run :=
  match fuel with
  | O => ([], OutOfFuel)
  | S fuel =>
      match _iterable_gcs s with
      | (es, None, s') => emits es ([], Raise StopIteration)
      | (es, Some line, s') =>
          emits es
            (if contains (open_tag self) line then
               let '(claimed, tracker') :=
                 try_claim current_pos (offset_range_tracker s') in
               emit (TryClaim current_pos claimed)
                 (if negb claimed then ([], Raise StopIteration)
                  else
                    let content := [line] in
                    for_close fuel content
                      (mkState (f s') (iterable_f_finished s') tracker'))
             else
               let current_pos := tell (f s') in
               for_open fuel current_pos s')
      end
  end
with for_close (fuel : nat) (content : list bytes) (s : State) : run :=
  match fuel with
  | O => ([], OutOfFuel)
  | S fuel =>
      match _iterable_gcs s with
      | (es, None, s') => emits es (while_true fuel s')
      | (es, Some line, s') =>
          let content := content ++ [line] in
          emits es
            (if contains (close_tag self) line then
               emit (Yield (join content)) (while_true fuel s')
             else for_close fuel content s')
      end
  end.

(** [tag_iterator(file_name, offset_range_tracker)], drained by its
    consumer; [file_data] is the content of the file [open_file] opens. *)
Definition tag_iterator (file_data : bytes) (tracker : T) : run :=
  let f := mkFile file_data 0 in
  let start := py_or (start_position tracker) 0 in
  let f := seek start f in
  emit (Seek start)
    (while_true (2 * length file_data + 4) (mkState f false tracker)).

(** [read_records(file_name, offset_range_tracker)] *)
Definition read_records (file_data : bytes) (tracker : T) : run :=
  tag_iterator file_data tracker.

End TagIterator.

(** ** Lines of a byte string

    [readlines s] is what repeated [readline] calls return on [s]. *)

Fixpoint readlines (s : bytes) : list bytes :=
  match s with
  | [] => []
  | c :: s' =>
      if Ascii.eqb c newline then [c] :: readlines s'
      else match readlines s' with
           | [] => [[c]]
           | l :: ls => (c :: l) :: ls
           end
  end.

(** ** The scanner as a function of the lines ahead

    The two states of the scanner, run over the lines that [readline] is
    going to return from offset [pos] on.  [tag_iterator_scan] below shows
    that the loops of [tag_iterator] compute exactly this. *)

Section Scanner.

Context {T : Type} `{RangeTracker T}.
Variable self : XmlFileSource.

Fixpoint seeking_open (ls : list bytes) (pos : nat) (tr : T) : list event :=
  match ls with
  | [] => [Readline pos []]
  | l :: ls' =>
      Readline pos l ::
      if contains (open_tag self) l then
        TryClaim pos (fst (try_claim pos tr)) ::
        if fst (try_claim pos tr)
        then seeking_close ls' (pos + length l) [l] (snd (try_claim pos tr))
        else []
      else seeking_open ls' (pos + length l) tr
  end
with seeking_close (ls : list bytes) (pos : nat) (content : list bytes) (tr : T)
  : list event :=
  match ls with
  | [] => [Readline pos []]
  | l :: ls' =>
      Readline pos l ::
      if contains (close_tag self) l
      then Yield (join (content ++ [l])) :: seeking_open ls' (pos + length l) tr
      else seeking_close ls' (pos + length l) (content ++ [l]) tr
  end.

(** The continuation of a scan after the claim on line [l] at [p]. *)
Definition after_claim (c : bool) (p : nat) (l : bytes) (tr0 : T)
  (ahead : list bytes) : list event :=
  if c then seeking_close ahead (p + length l) [l] (snd (try_claim p tr0))
  else [].

End Scanner.

(** ** Vocabulary of the statements *)

(** The reads of the lines [ls], one after the other, from offset [pos]. *)
Fixpoint reads (pos : nat) (ls : list bytes) : list event :=
  match ls with
  | [] => []
  | l :: ls' => Readline pos l :: reads (pos + length l) ls'
  end.

(** The positions passed to [try_claim], in call order. *)
Fixpoint claim_positions (t : list event) : list nat :=
  match t with
  | [] => []
  | TryClaim p _ :: t' => p :: claim_positions t'
  | _ :: t' => claim_positions t'
  end.

(** The claimed start offset of each emitted record, in emission order:
    a record's offset is the position of the latest successful claim. *)
Fixpoint record_offsets (claimed : option nat) (t : list event) : list nat :=
  match t with
  | [] => []
  | TryClaim p true :: t' => record_offsets (Some p) t'
  | Yield _ :: t' =>
      match claimed with
      | Some p => p :: record_offsets claimed t'
      | None => record_offsets claimed t'
      end
  | _ :: t' => record_offsets claimed t'
  end.

Definition ends_with_newline (s : bytes) : Prop :=
  exists s0, s = s0 ++ [newline].

Section Layout.

Variable self : XmlFileSource.

Definition no_open (l : bytes) : Prop := contains (open_tag self) l = false.
Definition no_close (l : bytes) : Prop := contains (close_tag self) l = false.

(** [layout ls recs]: the lines [ls] are the records [recs], each on lines
    of its own, and the lines around them.  A record is a line with the
    open marker, then lines with neither marker, then a line with the close
    marker and without the open marker; the lines around the records do not
    contain the open marker. *)
Inductive layout : list bytes -> list (list bytes) -> Prop :=
| layout_end : layout [] []
| layout_between l ls recs :
    no_open l -> layout ls recs -> layout (l :: ls) recs
| layout_record o body c ls recs :
    contains (open_tag self) o = true ->
    Forall (fun l => no_open l /\ no_close l) body ->
    contains (close_tag self) c = true -> no_open c ->
    layout ls recs ->
    layout (o :: body ++ c :: ls) ((o :: body ++ [c]) :: recs).

Definition marker_free (s : bytes) : Prop := no_open s /\ no_close s.

(** [occurrences s recs]: read as bytes, [s] is the well-formed,
    non-nested occurrences [recs] of [<tag>...</tag>], in order, with
    marker-free text around them; each occurrence has a line break between
    its two markers. *)
Inductive occurrences : bytes -> list bytes -> Prop :=
| occurrences_none text : marker_free text -> occurrences text []
| occurrences_next text body rest recs :
    marker_free text -> marker_free body -> In newline body ->
    occurrences rest recs ->
    occurrences (text ++ open_tag self ++ body ++ close_tag self ++ rest)
                ((open_tag self ++ body ++ close_tag self) :: recs).

(** [record_span ls r]: [r] is made of consecutive lines of [ls], from a
    line with the open marker to a later line with the close marker, with
    no close marker on the lines between the two. *)
Definition record_span (ls : list bytes) (r : bytes) : Prop :=
  exists before first mid last after,
    ls = before ++ (first :: mid ++ [last]) ++ after
    /\ r = join (first :: mid ++ [last])
    /\ contains (open_tag self) first = true
    /\ Forall no_close mid
    /\ contains (close_tag self) last = true.

(** [k] is the offset of the first byte of a line of the file, or its end. *)
Definition at_line_start (k : nat) (file_data : bytes) : Prop :=
  exists before after,
    readlines file_data = before ++ after /\ length (concat before) = k.

(** The lines a reader that starts at offset [k] gets, when [ls] are the
    lines of the file from offset [pos] on and [pos <= k]: it starts at the
    line that holds [k], with what is left of it from [k] on. *)
Fixpoint lines_from (k pos : nat) (ls : list bytes) : list bytes :=
  match ls with
  | [] => []
  | l :: ls' =>
      if k <=? pos then ls
      else if k <? pos + length l then skipn (k - pos) l :: ls'
      else lines_from k (pos + length l) ls'
  end.

(** No line of [ls], which starts at [pos], is cut at [k] in front of an
    open marker. *)
Fixpoint split_clean (k pos : nat) (ls : list bytes) : Prop :=
  match ls with
  | [] => True
  | l :: ls' =>
      (pos < k -> k < pos + length l -> no_open (skipn (k - pos) l))
      /\ split_clean k (pos + length l) ls'
  end.

(** A reader that starts at [k] passes over the lines [ls], which start at
    [pos], without a claim. *)
Fixpoint skippable (k pos : nat) (ls : list bytes) : Prop :=
  match ls with
  | [] => True
  | l :: ls' =>
      (k <= pos -> no_open l)
      /\ (pos < k -> k < pos + length l -> no_open (skipn (k - pos) l))
      /\ skippable k (pos + length l) ls'
  end.

(** The full-file property as section 8 words it, for one file: as many
    records as there are occurrences. *)
Definition yields_every_occurrence (file_data : bytes) : Prop :=
  forall recs,
    occurrences file_data recs ->
    length (records (tag_iterator self file_data
                       (OffsetRangeTracker_init 0 (length file_data))))
    = length recs.

(** The records of the two runs over [[0,k)] and [[k, file_length)], in
    range order. *)
Definition split_records (file_data : bytes) (k : nat) : list bytes :=
  records (tag_iterator self file_data (OffsetRangeTracker_init 0 k))
  ++ records (tag_iterator self file_data
                (OffsetRangeTracker_init k (length file_data))).

Definition whole_records (file_data : bytes) : list bytes :=
  records (tag_iterator self file_data
             (OffsetRangeTracker_init 0 (length file_data))).

(** The range-splitting property as section 8 words it, for one file:
    whatever the split point, the same multiset of records. *)
Definition splits_agree (file_data : bytes) : Prop :=
  forall recs k,
    occurrences file_data recs ->
    k <= length file_data ->
    Permutation (split_records file_data k) (whole_records file_data).

End Layout.

(** ** Vocabulary of the further properties *)

(** The lines the reads of a run returned, in order. *)
Fixpoint read_lines (t : list event) : list bytes :=
  match t with
  | [] => []
  | Readline _ l :: t' => l :: read_lines t'
  | _ :: t' => read_lines t'
  end.

(** Every read of [t] starts where the read before it ended, the first one
    at [pos]. *)
Fixpoint reads_from (pos : nat) (t : list event) : Prop :=
  match t with
  | [] => True
  | Readline p l :: t' => p = pos /\ reads_from (pos + length l) t'
  | _ :: t' => reads_from pos t'
  end.

(** The number of [try_claim] calls that returned [c]. *)
Fixpoint count_claims (c : bool) (t : list event) : nat :=
  match t with
  | [] => 0
  | TryClaim _ c' :: t' => (if Bool.eqb c c' then 1 else 0) + count_claims c t'
  | _ :: t' => count_claims c t'
  end.

(** The emitted records, each with its claimed start offset: the position
    of the latest successful claim. *)
Fixpoint emitted_at (claimed : option nat) (t : list event) : list (nat * bytes) :=
  match t with
  | [] => []
  | TryClaim p true :: t' => emitted_at (Some p) t'
  | Yield r :: t' =>
      match claimed with
      | Some p => (p, r) :: emitted_at claimed t'
      | None => emitted_at claimed t'
      end
  | _ :: t' => emitted_at claimed t'
  end.

(** The record of [pr] is, byte for byte, what [s] holds from the offset
    of [pr] on, when [s] starts at offset [base]. *)
Definition within (base : nat) (s : bytes) (pr : nat * bytes) : Prop :=
  base <= fst pr
  /\ firstn (length (snd pr)) (skipn (fst pr - base) s) = snd pr.

Section Spans.

Variable self : XmlFileSource.

(** [spans_in_order ls recs]: the records [recs] are disjoint runs of
    consecutive lines of [ls], in the order of [ls].  Each one starts at the
    first line with the open marker after the record before it and ends at
    the first later line with the close marker. *)
Inductive spans_in_order : list bytes -> list bytes -> Prop :=
| spans_none ls : spans_in_order ls []
| spans_next before first mid last after recs :
    Forall (no_open self) before ->
    contains (open_tag self) first = true ->
    Forall (no_close self) mid ->
    contains (close_tag self) last = true ->
    spans_in_order after recs ->
    spans_in_order (before ++ (first :: mid ++ [last]) ++ after)
                   ((first ++ concat mid ++ last) :: recs).

End Spans.

Section Truncated.

Context {T : Type} `{RangeTracker T}.
Variable self : XmlFileSource.

(** The truncation property as section 8 words it, for one file, one
    completion of it and one tracker: when the run claims a line and the
    file ends before a later line holds the close marker, the run on the
    completed file, where the record opened there is closed and nothing
    follows it, emits exactly one record more. *)
Definition truncation_drops_one (file_data completion : bytes) (tracker : T)
  : Prop :=
  forall pre p l post lead body rest,
    events (tag_iterator self file_data tracker)
    = pre ++ Readline p l :: TryClaim p true :: post ->
    Forall (no_close self) (readlines (skipn (p + length l) file_data)) ->
    skipn p (file_data ++ completion)
    = lead ++ open_tag self ++ body ++ close_tag self ++ rest ->
    marker_free self lead -> marker_free self body -> marker_free self rest ->
    S (length (records (tag_iterator self file_data tracker)))
    = length (records (tag_iterator self (file_data ++ completion) tracker)).

End Truncated.

(** ** Example files *)

Definition page := XmlFileSource_init (b "page").

Definition wiki_lines : list bytes :=
  [ ln "<mediawiki>";
    ln "  <page>"; ln "    <title>A</title>"; ln "  </page>";
    ln "  <page>"; ln "    <title>B</title>"; ln "  </page>";
    ln "</mediawiki>" ].

Definition wiki : bytes := concat wiki_lines.

Definition wiki_pages : list (list bytes) :=
  [ [ln "  <page>"; ln "    <title>A</title>"; ln "  </page>"];
    [ln "  <page>"; ln "    <title>B</title>"; ln "  </page>"] ].

(** [wiki] cut inside the title line of its second page, and what the cut
    took away. *)
Definition wiki_truncated : bytes := firstn 76 wiki.
Definition wiki_rest : bytes := skipn 76 wiki.

(** Two records, the second opened on the line that closes the first. *)
Definition shared_line_file : bytes :=
  ln "<page>" ++ ln "a" ++ ln "</page><page>" ++ ln "b" ++ ln "</page>".

(** A record whose first line holds both markers. *)
Definition same_line_file : bytes :=
  ln "<page>x</page>" ++ ln "y" ++ ln "</page>".

(** One record, its tags indented as in a Wikipedia dump. *)
Definition indented_file : bytes :=
  ln "  <page>" ++ ln "A" ++ ln "  </page>".

(** A file without any record. *)
Definition empty_wiki : bytes := ln "<mediawiki>" ++ ln "</mediawiki>".

(** A file cut inside its open-tag line, and a completion that closes the
    record on that same line. *)
Definition cut_open_line : bytes := b "<page>".
Definition closing_on_line : bytes := ln "x</page>".

(** * Properties *)

Example wiki_records :
  records (tag_iterator page wiki (OffsetRangeTracker_init 0 (length wiki)))
  = map join wiki_pages.
Proof. vm_compute. reflexivity. Qed.

(** ** Substrings *)

Lemma startswith_spec (p s : bytes) :
  startswith p s = true <-> exists rest, s = p ++ rest.
Proof.
  revert s; induction p as [|x p IH]; intros s; simpl.
  - split; [intros _; now exists s | reflexivity].
  - destruct s as [|y s].
    + split; [discriminate | intros [rest E]; discriminate].
    + rewrite andb_true_iff, Ascii.eqb_eq, IH. split.
      * intros [-> [rest ->]]. now exists rest.
      * intros [rest E]. injection E as -> ->. split; [reflexivity | now exists rest].
Qed.

(** [contains] is the plain substring test of Python's [in]. *)
Lemma contains_spec (p s : bytes) :
  contains p s = true <-> exists before after, s = before ++ p ++ after.
Proof.
  induction s as [|y s IH].
  - simpl. rewrite orb_false_r, startswith_spec. split.
    + intros [rest E]. now exists [], rest.
    + intros [before [after E]]. destruct before; simpl in E.
      * now exists after.
      * discriminate.
  - cbn [contains]. rewrite orb_true_iff, startswith_spec, IH. split.
    + intros [[rest E] | [before [after E]]].
      * now exists [], rest.
      * exists (y :: before), after. now rewrite E.
    + intros [before [after E]]. destruct before as [|z before]; simpl in E.
      * left. now exists after.
      * right. injection E as -> ->. now exists before, after.
Qed.

Lemma contains_app_r (p x y : bytes) :
  contains p y = true -> contains p (x ++ y) = true.
Proof.
  rewrite !contains_spec. intros [before [after ->]].
  exists (x ++ before), after. now rewrite <- app_assoc.
Qed.

Lemma contains_skipn (p s : bytes) (n : nat) :
  contains p s = false -> contains p (skipn n s) = false.
Proof.
  intros Hs. destruct (contains p (skipn n s)) eqn:E; [|reflexivity].
  rewrite <- Hs. symmetry. rewrite <- (firstn_skipn n s).
  now apply contains_app_r.
Qed.

(** ** Lines *)

Lemma take_line_nonempty (s : bytes) : s <> [] -> take_line s <> [].
Proof. destruct s as [|c s]; [easy|]. intros _. simpl. now destruct (Ascii.eqb c newline). Qed.


Lemma readlines_unfold (s : bytes) :
  s <> [] ->
  readlines s = take_line s :: readlines (skipn (length (take_line s)) s).
Proof.
  induction s as [|c s IH]; [easy|]. intros _. simpl.
  destruct (Ascii.eqb c newline); [reflexivity|]. simpl.
  destruct s as [|c' s]; [reflexivity|]. now rewrite IH.
Qed.

Lemma readlines_length (s : bytes) : length (readlines s) <= length s.
Proof.
  induction s as [|c s IH]; simpl; [lia|].
  destruct (Ascii.eqb c newline); simpl; [lia|].
  destruct (readlines s); simpl in *; lia.
Qed.

Lemma concat_readlines (s : bytes) : concat (readlines s) = s.
Proof.
  induction s as [|c s IH]; simpl; [reflexivity|].
  destruct (Ascii.eqb c newline); simpl; [now rewrite IH|].
  destruct (readlines s); simpl in *; now rewrite <- IH.
Qed.

(** ** The loops compute the scanner *)

Section Loops.

Context {T : Type} `{RangeTracker T}.
Variable self : XmlFileSource.

Lemma for_open_S fuel current_pos (s : @State T) :
  for_open self (S fuel) current_pos s =
  match _iterable_gcs s with
  | (es, None, s') => emits es ([], Raise StopIteration)
  | (es, Some line, s') =>
      emits es
        (if contains (open_tag self) line then
           let '(claimed, tracker') :=
             try_claim current_pos (offset_range_tracker s') in
           emit (TryClaim current_pos claimed)
             (if negb claimed then ([], Raise StopIteration)
              else for_close self fuel [line]
                     (mkState (f s') (iterable_f_finished s') tracker'))
         else for_open self fuel (tell (f s')) s')
  end.
Proof. reflexivity. Qed.

Lemma for_close_S fuel content (s : @State T) :
  for_close self (S fuel) content s =
  match _iterable_gcs s with
  | (es, None, s') => emits es (while_true self fuel s')
  | (es, Some line, s') =>
      emits es
        (if contains (close_tag self) line then
           emit (Yield (join (content ++ [line]))) (while_true self fuel s')
         else for_close self fuel (content ++ [line]) s')
  end.
Proof. reflexivity. Qed.

Lemma while_true_S fuel (s : @State T) :
  while_true self (S fuel) s = for_open self fuel (tell (f s)) s.
Proof. reflexivity. Qed.

(** A finished line generator ends the run without another read. *)
Lemma while_true_finished fuel (s : @State T) :
  iterable_f_finished s = true ->
  while_true self (S (S fuel)) s = ([], Raise StopIteration).
Proof.
  intros Hfin. rewrite while_true_S, for_open_S.
  unfold _iterable_gcs. now rewrite Hfin.
Qed.

(** One [next] of the line generator, in terms of the lines ahead. *)
Lemma next_line (s : @State T) :
  iterable_f_finished s = false ->
  match readlines (unread (f s)) with
  | [] =>
      exists s', _iterable_gcs s = ([Readline (offset (f s)) []], None, s')
                 /\ iterable_f_finished s' = true
  | l :: ls =>
      exists s', _iterable_gcs s = ([Readline (offset (f s)) l], Some l, s')
                 /\ iterable_f_finished s' = false
                 /\ offset (f s') = offset (f s) + length l
                 /\ readlines (unread (f s')) = ls
                 /\ offset_range_tracker s' = offset_range_tracker s
  end.
Proof.
  intros Hrun. unfold _iterable_gcs, readline, tell. rewrite Hrun.
  destruct (unread (f s)) as [|c u] eqn:Hu.
  - simpl. eexists. split; reflexivity.
  - assert (Hne : c :: u <> []) by easy.
    rewrite (readlines_unfold Hne).
    pose proof (take_line_nonempty Hne) as Hl.
    destruct (take_line (c :: u)) as [|c' l'] eqn:Hline; [easy|].
    eexists. split; [reflexivity|]. cbn [f iterable_f_finished offset_range_tracker offset].
    repeat split.
    unfold unread in *. cbn [data offset].
    rewrite Nat.add_comm, <- skipn_skipn, Hu. reflexivity.
Qed.

Lemma loops_scan (ls : list bytes) :
  (forall fuel (s : @State T),
      iterable_f_finished s = false ->
      readlines (unread (f s)) = ls ->
      2 * length ls + 3 <= fuel ->
      for_open self fuel (offset (f s)) s
      = (seeking_open self ls (offset (f s)) (offset_range_tracker s),
         Raise StopIteration))
  /\
  (forall fuel content (s : @State T),
      iterable_f_finished s = false ->
      readlines (unread (f s)) = ls ->
      2 * length ls + 3 <= fuel ->
      for_close self fuel content s
      = (seeking_close self ls (offset (f s)) content (offset_range_tracker s),
         Raise StopIteration)).
Proof.
  induction ls as [|l ls [IHo IHc]]; split.
  - intros fuel s Hrun Hls Hfuel. destruct fuel as [|fuel]; [simpl in Hfuel; lia|].
    rewrite for_open_S. pose proof (next_line s Hrun) as Hn. rewrite Hls in Hn.
    destruct Hn as [s' [-> _]]. reflexivity.
  - intros fuel content s Hrun Hls Hfuel.
    destruct fuel as [|[|[|fuel]]]; try (simpl in Hfuel; lia).
    rewrite for_close_S. pose proof (next_line s Hrun) as Hn. rewrite Hls in Hn.
    destruct Hn as [s' [-> Hfin]]. now rewrite while_true_finished.
  - intros fuel s Hrun Hls Hfuel. destruct fuel as [|fuel]; [simpl in Hfuel; lia|].
    simpl in Hfuel.
    rewrite for_open_S. pose proof (next_line s Hrun) as Hn. rewrite Hls in Hn.
    destruct Hn as [s' [-> [Hrun' [Hoff [Hls' Htr]]]]].
    cbn [seeking_open]. destruct (contains (open_tag self) l).
    + rewrite Htr.
      destruct (try_claim (offset (f s)) (offset_range_tracker s)) as [[|] tr'].
      * cbn [negb fst snd]. rewrite <- Hoff.
        rewrite (IHc fuel [l] (mkState (f s') (iterable_f_finished s') tr'));
          [reflexivity | assumption | assumption | lia].
      * reflexivity.
    + unfold tell. rewrite (IHo fuel s' Hrun' Hls'); [|lia].
      now rewrite Hoff, Htr.
  - intros fuel content s Hrun Hls Hfuel. destruct fuel as [|fuel]; [simpl in Hfuel; lia|].
    simpl in Hfuel.
    rewrite for_close_S. pose proof (next_line s Hrun) as Hn. rewrite Hls in Hn.
    destruct Hn as [s' [-> [Hrun' [Hoff [Hls' Htr]]]]].
    cbn [seeking_close]. destruct (contains (close_tag self) l).
    + destruct fuel as [|fuel]; [lia|]. rewrite while_true_S. unfold tell.
      rewrite (IHo fuel s' Hrun' Hls'); [|lia].
      now rewrite Hoff, Htr.
    + rewrite (IHc fuel (content ++ [l]) s' Hrun' Hls'); [|lia].
      now rewrite Hoff, Htr.
Qed.

(** [tag_iterator] seeks, then scans the lines from there on; it always
    ends by raising [StopIteration]. *)
Theorem tag_iterator_scan (file_data : bytes) (tracker : T) :
  let start := py_or (start_position tracker) 0 in
  tag_iterator self file_data tracker
  = (Seek start :: seeking_open self (readlines (skipn start file_data)) start tracker,
     Raise StopIteration).
Proof.
  intros start. unfold tag_iterator. fold start.
  set (s := mkState (seek start (mkFile file_data 0)) false tracker).
  assert (Hlen : length (readlines (skipn start file_data)) <= length file_data).
  { etransitivity; [apply readlines_length|]. rewrite length_skipn. lia. }
  replace (2 * length file_data + 4) with (S (2 * length file_data + 3)) by lia.
  rewrite while_true_S.
  destruct (loops_scan (readlines (skipn start file_data))) as [Ho _].
  unfold tell. rewrite (Ho _ s); [reflexivity | reflexivity | reflexivity | lia].
Qed.

Corollary tag_iterator_terminates (file_data : bytes) (tracker : T) :
  snd (tag_iterator self file_data tracker) = Raise StopIteration.
Proof. now rewrite tag_iterator_scan. Qed.

End Loops.

(** ** Unfolding the scanner *)

Section Unfold.

Context {T : Type} `{RangeTracker T}.
Variable self : XmlFileSource.

Lemma seeking_open_cons l ls pos (tr : T) :
  seeking_open self (l :: ls) pos tr
  = Readline pos l ::
    if contains (open_tag self) l then
      TryClaim pos (fst (try_claim pos tr)) ::
      if fst (try_claim pos tr)
      then seeking_close self ls (pos + length l) [l] (snd (try_claim pos tr))
      else []
    else seeking_open self ls (pos + length l) tr.
Proof. reflexivity. Qed.

Lemma seeking_close_cons l ls pos content (tr : T) :
  seeking_close self (l :: ls) pos content tr
  = Readline pos l ::
    if contains (close_tag self) l
    then Yield (join (content ++ [l])) :: seeking_open self ls (pos + length l) tr
    else seeking_close self ls (pos + length l) (content ++ [l]) tr.
Proof. reflexivity. Qed.

End Unfold.

(** ** Where a claim sits in a scan *)

Section Traces.

Context {T : Type} `{RangeTracker T}.
Variable self : XmlFileSource.

Local Ltac absurd_trace E :=
  repeat match type of E with
         | _ = ?pre ++ _ => is_var pre; destruct pre; simpl in E
         end;
  try discriminate E.

(** Every [try_claim] of a scan follows the read of a line with the open
    marker, at the offset of that line; what the scan does up to the claim
    does not depend on the lines after that line. *)
Lemma claim_inversion (ls : list bytes) :
  (forall pos (tr : T) pre p c post,
      seeking_open self ls pos tr = pre ++ TryClaim p c :: post ->
      exists pre' ls0 l ls' tr0,
        pre = pre' ++ [Readline p l] /\ ls = ls0 ++ l :: ls'
        /\ p = pos + length (concat ls0)
        /\ contains (open_tag self) l = true
        /\ c = fst (try_claim p tr0)
        /\ forall ahead,
             seeking_open self (ls0 ++ l :: ahead) pos tr
             = pre ++ TryClaim p c :: after_claim self c p l tr0 ahead)
  /\
  (forall pos content (tr : T) pre p c post,
      seeking_close self ls pos content tr = pre ++ TryClaim p c :: post ->
      exists pre' ls0 l ls' tr0,
        pre = pre' ++ [Readline p l] /\ ls = ls0 ++ l :: ls'
        /\ p = pos + length (concat ls0)
        /\ contains (open_tag self) l = true
        /\ c = fst (try_claim p tr0)
        /\ forall ahead,
             seeking_close self (ls0 ++ l :: ahead) pos content tr
             = pre ++ TryClaim p c :: after_claim self c p l tr0 ahead).
Proof.
  induction ls as [|l0 ls1 [IHo IHc]]; split.
  - intros pos tr pre p c post E. simpl in E. absurd_trace E.
    destruct pre; discriminate.
  - intros pos content tr pre p c post E. simpl in E. absurd_trace E.
    destruct pre; discriminate.
  - intros pos tr pre p c post E. cbn [seeking_open] in E.
    destruct pre as [|e pre]; [discriminate|]. simpl in E.
    injection E as <- E.
    destruct (contains (open_tag self) l0) eqn:Ho.
    + destruct pre as [|e' pre]; simpl in E.
      * injection E as <- <- <-.
        exists [], [], l0, ls1, tr. simpl. rewrite Nat.add_0_r.
        repeat split; try assumption. intros ahead. now rewrite Ho.
      * injection E as <- E.
        destruct (fst (try_claim pos tr)) eqn:Hc; [|destruct pre; discriminate].
        destruct (IHc _ _ _ _ _ _ _ E) as (pre' & ls0 & l & ls' & tr0 & -> & -> & -> & Hl & -> & Hahead).
        exists (Readline pos l0 :: TryClaim pos true :: pre'), (l0 :: ls0), l, ls', tr0.
        simpl. rewrite length_app, Nat.add_assoc.
        repeat split; try assumption. intros ahead.
        rewrite Ho, Hc, Hahead. reflexivity.
    + destruct (IHo _ _ _ _ _ _ E) as (pre' & ls0 & l & ls' & tr0 & -> & -> & -> & Hl & -> & Hahead).
      exists (Readline pos l0 :: pre'), (l0 :: ls0), l, ls', tr0.
      simpl. rewrite length_app, Nat.add_assoc.
      repeat split; try assumption. intros ahead.
      rewrite Ho, Hahead. reflexivity.
  - intros pos content tr pre p c post E. cbn [seeking_close] in E.
    destruct pre as [|e pre]; [discriminate|]. simpl in E.
    injection E as <- E.
    destruct (contains (close_tag self) l0) eqn:Hcl.
    + destruct pre as [|e' pre]; [discriminate|]. simpl in E.
      injection E as <- E.
      destruct (IHo _ _ _ _ _ _ E) as (pre' & ls0 & l & ls' & tr0 & -> & -> & -> & Hl & -> & Hahead).
      exists (Readline pos l0 :: Yield (join (content ++ [l0])) :: pre'), (l0 :: ls0), l, ls', tr0.
      simpl. rewrite length_app, Nat.add_assoc.
      repeat split; try assumption. intros ahead.
      rewrite Hcl, Hahead. reflexivity.
    + destruct (IHc _ _ _ _ _ _ _ E) as (pre' & ls0 & l & ls' & tr0 & -> & -> & -> & Hl & -> & Hahead).
      exists (Readline pos l0 :: pre'), (l0 :: ls0), l, ls', tr0.
      simpl. rewrite length_app, Nat.add_assoc.
      repeat split; try assumption. intros ahead.
      rewrite Hcl, Hahead. reflexivity.
Qed.

End Traces.

(** ** More on lines *)

Lemma readlines_head (s l : bytes) (ls : list bytes) :
  readlines s = l :: ls -> take_line s = l /\ readlines (skipn (length l) s) = ls.
Proof.
  intros E. destruct s as [|c s]; [discriminate|].
  rewrite readlines_unfold in E by easy. injection E as E1 E2.
  rewrite <- E1 at 2. now split.
Qed.

(** The lines from a line boundary on are the remaining lines. *)
Lemma readlines_skipn (before after : list bytes) (s : bytes) :
  readlines s = before ++ after ->
  readlines (skipn (length (concat before)) s) = after.
Proof.
  revert s; induction before as [|a before IH]; intros s E; [exact E|].
  simpl in E. apply readlines_head in E as [_ E].
  apply IH in E. rewrite skipn_skipn in E.
  simpl. now rewrite length_app, Nat.add_comm.
Qed.

Lemma readlines_nonempty (s : bytes) : Forall (fun l => l <> []) (readlines s).
Proof.
  induction s as [|c s IH]; simpl; [constructor|].
  destruct (Ascii.eqb c newline); [constructor; [easy | exact IH]|].
  destruct (readlines s); constructor; try easy. now inversion IH.
Qed.


(** ** The shape of a scan for the close marker *)

Section Closing.

Context {T : Type} `{RangeTracker T}.
Variable self : XmlFileSource.

Lemma seeking_close_found more c after pos content (tr : T) :
  Forall (no_close self) more ->
  contains (close_tag self) c = true ->
  seeking_close self (more ++ c :: after) pos content tr
  = reads pos more
    ++ Readline (pos + length (concat more)) c
       :: Yield (join (content ++ more ++ [c]))
       :: seeking_open self after (pos + length (concat more) + length c) tr.
Proof.
  intros Hmore Hc. revert pos content.
  induction Hmore as [|l more Hl Hmore IH]; intros pos content.
  - simpl. now rewrite Hc, Nat.add_0_r.
  - cbn [app seeking_close reads]. unfold no_close in Hl. rewrite Hl, IH.
    simpl. rewrite length_app, !Nat.add_assoc, <- !app_assoc. reflexivity.
Qed.

Lemma seeking_close_dropped ls pos content (tr : T) :
  Forall (no_close self) ls ->
  seeking_close self ls pos content tr
  = reads pos ls ++ [Readline (pos + length (concat ls)) []].
Proof.
  intros Hls. revert pos content.
  induction Hls as [|l ls Hl Hls IH]; intros pos content.
  - simpl. now rewrite Nat.add_0_r.
  - cbn [seeking_close reads]. unfold no_close in Hl. rewrite Hl, IH.
    simpl. rewrite length_app, !Nat.add_assoc. reflexivity.
Qed.

(** The lines ahead either hold a first line with the close marker, or
    none at all. *)
Lemma first_close (ls : list bytes) :
  (exists more c after,
      ls = more ++ c :: after /\ Forall (no_close self) more
      /\ contains (close_tag self) c = true)
  \/ Forall (no_close self) ls.
Proof.
  induction ls as [|l ls IH]; [right; constructor|].
  destruct (contains (close_tag self) l) eqn:Hl.
  - left. exists [], l, ls. repeat split; [constructor | assumption].
  - destruct IH as [(more & c & after & -> & Hmore & Hc) | Hall].
    + left. exists (l :: more), c, after. repeat split; [|assumption].
      now constructor.
    + right. now constructor.
Qed.

Lemma records_of_app (t1 t2 : list event) :
  records_of (t1 ++ t2) = records_of t1 ++ records_of t2.
Proof.
  induction t1 as [|e t1 IH]; [reflexivity|].
  destruct e; simpl; now rewrite IH.
Qed.

Lemma records_of_reads pos ls : records_of (reads pos ls) = [].
Proof. revert pos; induction ls as [|l ls IH]; intros pos; simpl; auto. Qed.

End Closing.

(** ** Runs of [tag_iterator] *)

Section Runs.

Context {T : Type} `{RangeTracker T}.
Variable self : XmlFileSource.

Lemma tag_iterator_events (file_data : bytes) (tracker : T) :
  events (tag_iterator self file_data tracker)
  = Seek (py_or (start_position tracker) 0)
    :: seeking_open self
         (readlines (skipn (py_or (start_position tracker) 0) file_data))
         (py_or (start_position tracker) 0) tracker.
Proof. unfold events. now rewrite tag_iterator_scan. Qed.

Lemma tag_iterator_records (file_data : bytes) (tracker : T) :
  records (tag_iterator self file_data tracker)
  = records_of
      (seeking_open self
         (readlines (skipn (py_or (start_position tracker) 0) file_data))
         (py_or (start_position tracker) 0) tracker).
Proof. unfold records. now rewrite tag_iterator_events. Qed.

(** A claim of a run, located in the file. *)
Lemma tag_iterator_claim (file_data : bytes) (tracker : T) pre p c post :
  events (tag_iterator self file_data tracker) = pre ++ TryClaim p c :: post ->
  let start := py_or (start_position tracker) 0 in
  exists pre' ls0 l ls' tr0,
    pre = Seek start :: pre' ++ [Readline p l]
    /\ readlines (skipn start file_data) = ls0 ++ l :: ls'
    /\ p = start + length (concat ls0)
    /\ contains (open_tag self) l = true
    /\ c = fst (try_claim p tr0)
    /\ post = after_claim self c p l tr0 ls'
    /\ forall ahead,
         seeking_open self (ls0 ++ l :: ahead) start tracker
         = pre' ++ Readline p l :: TryClaim p c :: after_claim self c p l tr0 ahead.
Proof.
  intros E start. rewrite tag_iterator_events in E. fold start in E.
  destruct pre as [|e pre]; [discriminate|]. simpl in E. injection E as <- E.
  destruct (claim_inversion self (readlines (skipn start file_data))) as [Ho _].
  destruct (Ho _ _ _ _ _ _ E) as (pre' & ls0 & l & ls' & tr0 & -> & Hls & -> & Hl & -> & Hahead).
  exists pre', ls0, l, ls', tr0. repeat split; try assumption.
  - specialize (Hahead ls'). rewrite <- Hls, E in Hahead.
    now apply app_inv_head in Hahead; injection Hahead.
  - intros ahead. now rewrite Hahead, <- app_assoc.
Qed.

(** C3. Once [try_claim] has returned false the run is over: nothing is
    read, claimed or emitted after the refused claim, whatever lines remain
    in the file, and the generator ends by [StopIteration], which its
    consumer reads as the ordinary end of the sequence. *)
Theorem refused_claim_ends_run (file_data : bytes) (tracker : T) pre p post :
  events (tag_iterator self file_data tracker) = pre ++ TryClaim p false :: post ->
  post = []
  /\ snd (tag_iterator self file_data tracker) = Raise StopIteration
  /\ observed (snd (tag_iterator self file_data tracker)) = Some EndOfSequence.
Proof.
  intros E. rewrite tag_iterator_terminates. repeat split.
  apply tag_iterator_claim in E as (? & ? & ? & ? & ? & _ & _ & _ & _ & _ & Hpost & _).
  exact Hpost.
Qed.

(** C6. Every [try_claim] of a run comes right after the read of a line
    that contains the open marker as a plain substring, and its argument
    is the file offset at which that read started: the claimed line is the
    line of the file that begins at the claimed position. *)
Theorem claim_follows_open_line (file_data : bytes) (tracker : T) pre p c post :
  events (tag_iterator self file_data tracker) = pre ++ TryClaim p c :: post ->
  exists pre' line,
    pre = pre' ++ [Readline p line]
    /\ line = take_line (skipn p file_data)
    /\ contains (open_tag self) line = true
    /\ exists before after, line = before ++ open_tag self ++ after.
Proof.
  intros E.
  apply tag_iterator_claim in E as (pre' & ls0 & l & ls' & tr0 & -> & Hls & -> & Hl & _).
  exists (Seek (py_or (start_position tracker) 0) :: pre'), l.
  repeat split; try assumption.
  - apply readlines_skipn in Hls. rewrite skipn_skipn in Hls.
    apply readlines_head in Hls as [<- _]. now rewrite Nat.add_comm.
  - now apply contains_spec.
Qed.

(** C4. When the claimed line holds the close marker too, the record is not
    emitted on that line: the run reads on, and either a later line [c]
    with the close marker ends the record, which then spans both lines and
    all between, or the input ends first and the run emits nothing more. *)
Theorem same_line_close_ignored (file_data : bytes) (tracker : T) pre p l post :
  events (tag_iterator self file_data tracker)
  = pre ++ Readline p l :: TryClaim p true :: post ->
  contains (open_tag self) l = true ->
  contains (close_tag self) l = true ->
  (exists more c post',
      Forall (no_close self) more /\ contains (close_tag self) c = true
      /\ c <> []
      /\ post = reads (p + length l) more
                ++ Readline (p + length l + length (concat more)) c
                   :: Yield (l ++ concat more ++ c) :: post'
      /\ l ++ concat more ++ c <> l)
  \/
  (exists more,
      Forall (no_close self) more
      /\ post = reads (p + length l) more
                ++ [Readline (p + length l + length (concat more)) []]
      /\ records_of post = []).
Proof.
  intros E _ _.
  replace (pre ++ Readline p l :: TryClaim p true :: post)
    with ((pre ++ [Readline p l]) ++ TryClaim p true :: post) in E
    by now rewrite <- app_assoc.
  apply tag_iterator_claim in E
    as (pre' & ls0 & l' & ls' & tr0 & Hpre & Hls & _ & _ & _ & -> & _).
  assert (l' = l) as ->.
  { change (Seek (py_or (start_position tracker) 0) :: pre' ++ [Readline p l'])
      with ((Seek (py_or (start_position tracker) 0) :: pre') ++ [Readline p l']) in Hpre.
    apply app_inj_tail in Hpre as [_ Hpre]. now injection Hpre. }
  assert (Hne : Forall (fun x => x <> []) ls').
  { pose proof (readlines_nonempty (skipn (py_or (start_position tracker) 0) file_data)) as Hall.
    rewrite Hls in Hall. apply Forall_app in Hall as [_ Hall]. now inversion Hall. }
  unfold after_claim.
  destruct (first_close self ls') as [(more & c & after & -> & Hmore & Hc) | Hall].
  - left. exists more, c.
    eexists. rewrite seeking_close_found by assumption.
    apply Forall_app in Hne as [_ Hne]. apply Forall_inv in Hne.
    repeat split; try assumption.
    + unfold join. simpl. rewrite concat_app. simpl.
      rewrite app_nil_r. reflexivity.
    + intros Habs. apply (f_equal (@length ascii)) in Habs.
      rewrite !length_app in Habs. destruct c; [easy | simpl in Habs; lia].
  - right. exists ls'. rewrite seeking_close_dropped by assumption.
    repeat split; try assumption.
    now rewrite records_of_app, records_of_reads.
Qed.

(** C8. A run first seeks: to offset 0 when [start_position()] is [None]
    (or 0), to the returned offset otherwise; the first read starts
    there. *)
Theorem seeks_to_start_position (file_data : bytes) (tracker : T) :
  let start := match start_position tracker with
               | None => 0
               | Some p => p
               end in
  exists rest,
    events (tag_iterator self file_data tracker)
    = Seek start :: Readline start (take_line (skipn start file_data)) :: rest.
Proof.
  intros start. rewrite tag_iterator_events.
  assert (py_or (start_position tracker) 0 = start) as ->.
  { unfold start. destruct (start_position tracker) as [[|n]|]; reflexivity. }
  destruct (readlines (skipn start file_data)) as [|l ls] eqn:Hls.
  - destruct (skipn start file_data) as [|c s] eqn:Hs.
    + now exists [].
    + rewrite readlines_unfold in Hls by easy. discriminate.
  - apply readlines_head in Hls as [-> _]. simpl. eexists. reflexivity.
Qed.

End Runs.

(** ** End of input, emitted records, claimed offsets *)

Section Invariants.

Context {T : Type} `{RangeTracker T}.
Variable self : XmlFileSource.

Lemma eof_is_last (ls : list bytes) :
  Forall (fun l => l <> []) ls ->
  (forall pos (tr : T) pre q post,
      seeking_open self ls pos tr = pre ++ Readline q [] :: post -> post = [])
  /\
  (forall pos content (tr : T) pre q post,
      seeking_close self ls pos content tr = pre ++ Readline q [] :: post ->
      post = []).
Proof.
  induction 1 as [|l0 ls1 Hl0 _ [IHo IHc]]; split.
  - intros pos tr pre q post E. simpl in E.
    destruct pre as [|e [|e' pre]]; try discriminate. now injection E.
  - intros pos content tr pre q post E. simpl in E.
    destruct pre as [|e [|e' pre]]; try discriminate. now injection E.
  - intros pos tr pre q post E. cbn [seeking_open] in E.
    destruct pre as [|e pre]; simpl in E;
      [injection E as _ El _; now rewrite El in Hl0|].
    injection E as _ E.
    destruct (contains (open_tag self) l0); [|now apply IHo in E].
    destruct pre as [|e' pre]; [discriminate|]. simpl in E. injection E as _ E.
    destruct (fst (try_claim pos tr)); [now apply IHc in E|].
    destruct pre; discriminate.
  - intros pos content tr pre q post E. cbn [seeking_close] in E.
    destruct pre as [|e pre]; simpl in E;
      [injection E as _ El _; now rewrite El in Hl0|].
    injection E as _ E.
    destruct (contains (close_tag self) l0); [|now apply IHc in E].
    destruct pre as [|e' pre]; [discriminate|]. simpl in E. injection E as _ E.
    now apply IHo in E.
Qed.

(** C7. A read that finds the stream exhausted, in particular while the
    scanner is looking for the next open tag, is the last thing a run does:
    the generator then ends by [StopIteration], the ordinary end of the
    record sequence for its consumer, not a failure. *)
Theorem end_of_stream_ends_run (file_data : bytes) (tracker : T) pre q post :
  events (tag_iterator self file_data tracker) = pre ++ Readline q [] :: post ->
  post = []
  /\ snd (tag_iterator self file_data tracker) = Raise StopIteration
  /\ observed (snd (tag_iterator self file_data tracker)) = Some EndOfSequence.
Proof.
  intros E. rewrite tag_iterator_terminates. repeat split.
  rewrite tag_iterator_events in E.
  destruct pre as [|e pre]; [discriminate|]. simpl in E. injection E as _ E.
  pose proof (readlines_nonempty
                (skipn (py_or (start_position tracker) 0) file_data)) as Hne.
  destruct (eof_is_last Hne) as [Ho _]. eapply Ho, E.
Qed.

Lemma record_span_cons l ls r :
  record_span self ls r -> record_span self (l :: ls) r.
Proof.
  intros (before & first & mid & last & after & -> & Hr).
  now exists (l :: before), first, mid, last, after.
Qed.

Lemma yields_span (ls : list bytes) :
  (forall pos (tr : T) r,
      In (Yield r) (seeking_open self ls pos tr) -> record_span self ls r)
  /\
  (forall pos content (tr : T) r,
      In (Yield r) (seeking_close self ls pos content tr) ->
      (exists mid last after,
          ls = mid ++ last :: after /\ r = join content ++ concat mid ++ last
          /\ Forall (no_close self) mid
          /\ contains (close_tag self) last = true)
      \/ record_span self ls r).
Proof.
  induction ls as [|l0 ls1 [IHo IHc]]; split.
  - intros pos tr r [E|[]]. discriminate.
  - intros pos content tr r [E|[]]. discriminate.
  - intros pos tr r [E|Hin]; [discriminate|].
    destruct (contains (open_tag self) l0) eqn:Ho.
    + destruct Hin as [E|Hin]; [discriminate|].
      destruct (fst (try_claim pos tr)); [|destruct Hin].
      apply IHc in Hin as [(mid & last & after & -> & -> & Hmid & Hlast)|Hspan].
      * exists [], l0, mid, last, after. simpl. unfold join. simpl.
        rewrite concat_app, <- !app_assoc. simpl. rewrite !app_nil_r.
        repeat split; assumption.
      * now apply record_span_cons.
    + apply record_span_cons. eapply IHo, Hin.
  - intros pos content tr r [E|Hin]; [discriminate|].
    destruct (contains (close_tag self) l0) eqn:Hcl.
    + destruct Hin as [E|Hin].
      * injection E as <-. left. exists [], l0, ls1.
        unfold join. rewrite concat_app. simpl. rewrite app_nil_r.
        repeat split; [constructor | assumption].
      * right. apply record_span_cons. eapply IHo, Hin.
    + apply IHc in Hin as [(mid & last & after & -> & -> & Hmid & Hlast)|Hspan].
      * left. exists (l0 :: mid), last, after.
        unfold join. rewrite concat_app. simpl. rewrite app_nil_r, <- !app_assoc.
        repeat split; [constructor|]; assumption.
      * right. now apply record_span_cons.
Qed.

Lemma in_records_of (t : list event) (r : bytes) :
  In r (records_of t) <-> In (Yield r) t.
Proof.
  induction t as [|e t IH]; [easy|].
  destruct e; simpl; rewrite IH; split; intros Hr;
    try (now right); try (destruct Hr as [E|Hr]; [discriminate | assumption]).
  - destruct Hr as [->|Hr]; [now left | now right].
  - destruct Hr as [E|Hr]; [left; now injection E | now right].
Qed.

(** C9. Every emitted record is the concatenation of consecutive lines of
    the input, as read from the start position: a first line with the open
    marker, a last line with the close marker, and between the two only
    lines without the close marker. *)
Theorem record_is_span (file_data : bytes) (tracker : T) (r : bytes) :
  In r (records (tag_iterator self file_data tracker)) ->
  exists before first mid last after,
    readlines (skipn (py_or (start_position tracker) 0) file_data)
    = before ++ (first :: mid ++ [last]) ++ after
    /\ r = first ++ concat mid ++ last
    /\ contains (open_tag self) first = true
    /\ Forall (no_close self) mid
    /\ contains (close_tag self) last = true.
Proof.
  rewrite tag_iterator_records, in_records_of. intros Hin.
  destruct (yields_span (readlines (skipn (py_or (start_position tracker) 0) file_data)))
    as [Ho _].
  destruct (Ho _ _ _ Hin)
    as (before & first & mid & last & after & Hls & Hr & Hfirst & Hmid & Hlast).
  exists before, first, mid, last, after.
  repeat split; try assumption.
  rewrite Hr. unfold join. simpl. rewrite concat_app. simpl.
  now rewrite app_nil_r.
Qed.

End Invariants.

Section Offsets.

Context {T : Type} `{RangeTracker T}.
Variable self : XmlFileSource.

Lemma sorted_cons_above (p pos : nat) (ps : list nat) :
  p < pos -> StronglySorted lt ps -> Forall (le pos) ps ->
  StronglySorted lt (p :: ps) /\ Forall (le p) (p :: ps).
Proof.
  intros Hp Hs Hall. split; constructor; try assumption; try lia.
  - eapply Forall_impl; [|exact Hall]. simpl. intros; lia.
  - eapply Forall_impl; [|exact Hall]. simpl. intros; lia.
Qed.

Lemma Forall_le_weaken (p q : nat) (ps : list nat) :
  p <= q -> Forall (le q) ps -> Forall (le p) ps.
Proof. intros Hpq. apply Forall_impl. intros; lia. Qed.

(** All claims of a scan from [pos] are at [pos] or later, in strictly
    increasing order. *)
Lemma claim_positions_sorted (ls : list bytes) :
  Forall (fun l => l <> []) ls ->
  (forall pos (tr : T),
      StronglySorted lt (claim_positions (seeking_open self ls pos tr))
      /\ Forall (le pos) (claim_positions (seeking_open self ls pos tr)))
  /\
  (forall pos content (tr : T),
      StronglySorted lt (claim_positions (seeking_close self ls pos content tr))
      /\ Forall (le pos) (claim_positions (seeking_close self ls pos content tr))).
Proof.
  induction 1 as [|l0 ls1 Hl0 _ [IHo IHc]]; split.
  - intros; simpl; split; constructor.
  - intros; simpl; split; constructor.
  - intros pos tr. cbn [seeking_open claim_positions].
    assert (Hlen : pos < pos + length l0) by (destruct l0; [easy | simpl; lia]).
    destruct (contains (open_tag self) l0).
    + cbn [claim_positions]. destruct (fst (try_claim pos tr)).
      * destruct (IHc (pos + length l0) [l0] (snd (try_claim pos tr))) as [Hs Hall].
        now apply sorted_cons_above with (pos := pos + length l0).
      * simpl. split; repeat constructor.
    + destruct (IHo (pos + length l0) tr) as [Hs Hall]. split; [assumption|].
      apply Forall_le_weaken with (q := pos + length l0); [lia | assumption].
  - intros pos content tr. cbn [seeking_close claim_positions].
    assert (Hlen : pos < pos + length l0) by (destruct l0; [easy | simpl; lia]).
    destruct (contains (close_tag self) l0).
    + cbn [claim_positions]. destruct (IHo (pos + length l0) tr) as [Hs Hall].
      split; [assumption|].
      apply Forall_le_weaken with (q := pos + length l0); [lia | assumption].
    + destruct (IHc (pos + length l0) (content ++ [l0]) tr) as [Hs Hall].
      split; [assumption|].
      apply Forall_le_weaken with (q := pos + length l0); [lia | assumption].
Qed.

(** The same for the start offsets of the emitted records; while a record
    is open, its offset [p0] comes first. *)
Lemma record_offsets_sorted (ls : list bytes) :
  Forall (fun l => l <> []) ls ->
  (forall pos (tr : T) claimed,
      StronglySorted lt (record_offsets claimed (seeking_open self ls pos tr))
      /\ Forall (le pos) (record_offsets claimed (seeking_open self ls pos tr))
      /\ length (record_offsets claimed (seeking_open self ls pos tr))
         = length (records_of (seeking_open self ls pos tr)))
  /\
  (forall pos content (tr : T) p0,
      p0 < pos ->
      StronglySorted lt
        (record_offsets (Some p0) (seeking_close self ls pos content tr))
      /\ Forall (le p0)
           (record_offsets (Some p0) (seeking_close self ls pos content tr))
      /\ length (record_offsets (Some p0) (seeking_close self ls pos content tr))
         = length (records_of (seeking_close self ls pos content tr))).
Proof.
  induction 1 as [|l0 ls1 Hl0 _ [IHo IHc]]; split.
  - intros; simpl; repeat split; constructor.
  - intros; simpl; repeat split; constructor.
  - intros pos tr claimed. cbn [seeking_open record_offsets records_of].
    assert (Hlen : pos < pos + length l0) by (destruct l0; [easy | simpl; lia]).
    destruct (contains (open_tag self) l0).
    + cbn [record_offsets records_of]. destruct (fst (try_claim pos tr)).
      * destruct (IHc (pos + length l0) [l0] (snd (try_claim pos tr)) pos Hlen)
          as (Hs & Hall & Hn).
        repeat split; assumption.
      * simpl. repeat split; constructor.
    + destruct (IHo (pos + length l0) tr claimed) as (Hs & Hall & Hn).
      repeat split; try assumption.
      apply Forall_le_weaken with (q := pos + length l0); [lia | assumption].
  - intros pos content tr p0 Hp0. cbn [seeking_close record_offsets records_of].
    assert (Hlen : pos < pos + length l0) by (destruct l0; [easy | simpl; lia]).
    destruct (contains (close_tag self) l0).
    + cbn [record_offsets records_of].
      destruct (IHo (pos + length l0) tr (Some p0)) as (Hs & Hall & Hn).
      destruct (@sorted_cons_above p0 (pos + length l0) _ ltac:(lia) Hs Hall).
      repeat split; try assumption. cbn [length]. f_equal. exact Hn.
    + apply IHc. lia.
Qed.

(** C10. Within one run the positions passed to [try_claim] are strictly
    increasing from call to call; so are the claimed start offsets of the
    emitted records, of which there is one for each record. *)
Theorem claims_strictly_increase (file_data : bytes) (tracker : T) :
  StronglySorted lt
    (claim_positions (events (tag_iterator self file_data tracker)))
  /\ StronglySorted lt
       (record_offsets None (events (tag_iterator self file_data tracker)))
  /\ length (record_offsets None (events (tag_iterator self file_data tracker)))
     = length (records (tag_iterator self file_data tracker)).
Proof.
  unfold records. rewrite tag_iterator_events. cbn [claim_positions record_offsets records_of].
  pose proof (readlines_nonempty
                (skipn (py_or (start_position tracker) 0) file_data)) as Hne.
  destruct (claim_positions_sorted Hne) as [Hc _].
  destruct (record_offsets_sorted Hne) as [Hr _].
  split; [apply Hc|]. split; apply Hr.
Qed.

End Offsets.

(** ** Truncated files *)

Lemma readlines_nil (s : bytes) : readlines s = [] -> s = [].
Proof. intros E. rewrite <- (concat_readlines s), E. reflexivity. Qed.

Lemma ends_with_newline_tail (c : ascii) (s : bytes) :
  ends_with_newline (c :: s) -> s = [] /\ c = newline \/ ends_with_newline s.
Proof.
  intros [[|c0 s0] E]; simpl in E; injection E as -> ->.
  - now left.
  - right. now exists s0.
Qed.

(** A byte string that ends a line splits into lines on its own. *)
Lemma readlines_app (x y : bytes) :
  x = [] \/ ends_with_newline x ->
  readlines (x ++ y) = readlines x ++ readlines y.
Proof.
  induction x as [|c x IH]; intros Hx; [reflexivity|].
  destruct Hx as [Hx|Hx]; [discriminate|].
  apply ends_with_newline_tail in Hx. simpl.
  destruct (Ascii.eqb c newline) eqn:Hc.
  - rewrite IH; [reflexivity|]. destruct Hx as [[-> _]|Hx]; auto.
  - destruct Hx as [[_ ->]|Hx]; [now rewrite Ascii.eqb_refl in Hc|].
    rewrite IH by now right.
    destruct (readlines x) as [|l ls] eqn:Hl; [|reflexivity].
    apply readlines_nil in Hl. subst x. destruct Hx as [[|? ?] E]; discriminate.
Qed.

Section Truncation.

Context {T : Type} `{RangeTracker T}.
Variable self : XmlFileSource.

(** Without a line that contains the open marker, a scan for the next
    record reads to the end of the stream and claims nothing. *)
Lemma seeking_open_exhausts ls pos (tr : T) :
  Forall (no_open self) ls ->
  seeking_open self ls pos tr
  = reads pos ls ++ [Readline (pos + length (concat ls)) []].
Proof.
  intros Hls. revert pos.
  induction Hls as [|l ls Hl Hls IH]; intros pos.
  - simpl. now rewrite Nat.add_0_r.
  - cbn [seeking_open reads]. unfold no_open in Hl. rewrite Hl, IH.
    simpl. rewrite length_app, !Nat.add_assoc. reflexivity.
Qed.

Lemma contains_app_l (p x y : bytes) :
  contains p x = true -> contains p (x ++ y) = true.
Proof.
  rewrite !contains_spec. intros [before [after ->]].
  exists before, (after ++ y). now rewrite <- !app_assoc.
Qed.

Lemma take_line_app (x y : bytes) :
  exists z, take_line (x ++ y) = take_line x ++ z.
Proof.
  induction x as [|c x [z IH]]; simpl.
  - now exists (take_line y).
  - destruct (Ascii.eqb c newline); [now exists []|].
    exists z. now rewrite IH.
Qed.

Lemma take_line_ends (s : bytes) :
  skipn (length (take_line s)) s <> [] -> ends_with_newline (take_line s).
Proof.
  induction s as [|c s IH]; simpl; [easy|].
  destruct (Ascii.eqb c newline) eqn:Hc.
  - intros _. apply Ascii.eqb_eq in Hc. subst c. now exists [].
  - simpl. intros Hne. destruct (IH Hne) as [z Hz]. exists (c :: z).
    now rewrite Hz.
Qed.

(** The lines in front of a line end with a newline. *)
Lemma prefix_lines_end (ls0 : list bytes) :
  forall (s l : bytes) (ls' : list bytes),
    readlines s = ls0 ++ l :: ls' ->
    concat ls0 = [] \/ ends_with_newline (concat ls0).
Proof.
  induction ls0 as [|a ls0 IH]; intros s l ls' Hs; [now left|].
  right. simpl in Hs. apply readlines_head in Hs as [Ha Hrest].
  assert (Hne : skipn (length (take_line s)) s <> []).
  { rewrite Ha. intros Habs. rewrite Habs in Hrest. destruct ls0; discriminate. }
  apply take_line_ends in Hne. rewrite Ha in Hne. destruct Hne as [z ->].
  destruct (IH _ _ _ Hrest) as [E|[w E]]; simpl; rewrite E.
  - exists z. now rewrite app_nil_r.
  - exists ((z ++ [newline]) ++ w). now rewrite <- !app_assoc.
Qed.

(** A claim of a scan is made in the scanner's first state; what the scan
    does before it reads the claimed line does not depend on that line or
    on the lines after it. *)
Lemma claim_reached (ls : list bytes) :
  (forall pos (tr : T) pre p c post,
      seeking_open self ls pos tr = pre ++ TryClaim p c :: post ->
      exists pre' ls0 l ls' tr0,
        pre = pre' ++ [Readline p l] /\ ls = ls0 ++ l :: ls'
        /\ p = pos + length (concat ls0)
        /\ contains (open_tag self) l = true
        /\ c = fst (try_claim p tr0)
        /\ forall ahead,
             seeking_open self (ls0 ++ ahead) pos tr
             = pre' ++ seeking_open self ahead p tr0)
  /\
  (forall pos content (tr : T) pre p c post,
      seeking_close self ls pos content tr = pre ++ TryClaim p c :: post ->
      exists pre' ls0 l ls' tr0,
        pre = pre' ++ [Readline p l] /\ ls = ls0 ++ l :: ls'
        /\ p = pos + length (concat ls0)
        /\ contains (open_tag self) l = true
        /\ c = fst (try_claim p tr0)
        /\ forall ahead,
             seeking_close self (ls0 ++ ahead) pos content tr
             = pre' ++ seeking_open self ahead p tr0).
Proof.
  induction ls as [|l0 ls1 [IHo IHc]]; split.
  - intros pos tr pre p c post E. simpl in E.
    destruct pre as [|e [|e' pre]]; discriminate.
  - intros pos content tr pre p c post E. simpl in E.
    destruct pre as [|e [|e' pre]]; discriminate.
  - intros pos tr pre p c post E. rewrite seeking_open_cons in E.
    destruct pre as [|e pre]; [discriminate|]. simpl in E.
    injection E as <- E.
    destruct (contains (open_tag self) l0) eqn:Ho.
    + destruct pre as [|e' pre]; simpl in E.
      * injection E as <- <- <-.
        exists [], [], l0, ls1, tr. simpl. rewrite Nat.add_0_r.
        repeat split; assumption.
      * injection E as <- E.
        destruct (fst (try_claim pos tr)) eqn:Hc; [|destruct pre; discriminate].
        destruct (IHc _ _ _ _ _ _ _ E)
          as (pre' & ls0 & l & ls' & tr0 & -> & -> & -> & Hl & -> & Hahead).
        exists (Readline pos l0 :: TryClaim pos true :: pre'), (l0 :: ls0), l, ls', tr0.
        simpl. rewrite length_app, Nat.add_assoc.
        repeat split; try assumption. intros ahead.
        rewrite Ho, Hc, Hahead. reflexivity.
    + destruct (IHo _ _ _ _ _ _ E)
        as (pre' & ls0 & l & ls' & tr0 & -> & -> & -> & Hl & -> & Hahead).
      exists (Readline pos l0 :: pre'), (l0 :: ls0), l, ls', tr0.
      simpl. rewrite length_app, Nat.add_assoc.
      repeat split; try assumption. intros ahead.
      rewrite Ho, Hahead. reflexivity.
  - intros pos content tr pre p c post E. rewrite seeking_close_cons in E.
    destruct pre as [|e pre]; [discriminate|]. simpl in E.
    injection E as <- E.
    destruct (contains (close_tag self) l0) eqn:Hcl.
    + destruct pre as [|e' pre]; [discriminate|]. simpl in E.
      injection E as <- E.
      destruct (IHo _ _ _ _ _ _ E)
        as (pre' & ls0 & l & ls' & tr0 & -> & -> & -> & Hl & -> & Hahead).
      exists (Readline pos l0 :: Yield (join (content ++ [l0])) :: pre'),
        (l0 :: ls0), l, ls', tr0.
      simpl. rewrite length_app, Nat.add_assoc.
      repeat split; try assumption. intros ahead.
      rewrite Hcl, Hahead. reflexivity.
    + destruct (IHc _ _ _ _ _ _ _ E)
        as (pre' & ls0 & l & ls' & tr0 & -> & -> & -> & Hl & -> & Hahead).
      exists (Readline pos l0 :: pre'), (l0 :: ls0), l, ls', tr0.
      simpl. rewrite length_app, Nat.add_assoc.
      repeat split; try assumption. intros ahead.
      rewrite Hcl, Hahead. reflexivity.
Qed.

(** C5 (amended). Let a run claim line [l] at [p], and let no later line
    of the file contain the close marker.  The run then ends by
    [StopIteration], not by a failure, and emits nothing for the record it
    opened.  On the file completed so that its lines from [p] on are the
    open line [l'], lines without the close marker, a later line [c] with
    the close marker and then lines without the open marker, the run emits
    the same records and then that record, byte for byte: exactly one
    more. *)
Theorem truncated_record_dropped
  (file_data completion : bytes) (tracker : T) pre p l post l' more c trailing :
  events (tag_iterator self file_data tracker)
  = pre ++ Readline p l :: TryClaim p true :: post ->
  Forall (no_close self) (readlines (skipn (p + length l) file_data)) ->
  readlines (skipn p (file_data ++ completion)) = l' :: more ++ c :: trailing ->
  Forall (no_close self) more ->
  contains (close_tag self) c = true ->
  Forall (no_open self) trailing ->
  snd (tag_iterator self file_data tracker) = Raise StopIteration
  /\ observed (snd (tag_iterator self file_data tracker)) = Some EndOfSequence
  /\ records (tag_iterator self file_data tracker) = records_of pre
  /\ records (tag_iterator self (file_data ++ completion) tracker)
     = records_of pre ++ [l' ++ concat more ++ c]
  /\ S (length (records (tag_iterator self file_data tracker)))
     = length (records (tag_iterator self (file_data ++ completion) tracker)).
Proof.
  intros E Hrest Hcompl Hmore Hc Htrail.
  set (start := py_or (start_position tracker) 0).
  assert (Hrec : records (tag_iterator self file_data tracker) = records_of pre
                 /\ records (tag_iterator self (file_data ++ completion) tracker)
                    = records_of pre ++ [l' ++ concat more ++ c]).
  { pose proof E as E'. rewrite tag_iterator_events in E'. fold start in E'.
    destruct pre as [|e pre0]; [discriminate|]. simpl in E'.
    injection E' as <- E'.
    replace (pre0 ++ Readline p l :: TryClaim p true :: post)
      with ((pre0 ++ [Readline p l]) ++ TryClaim p true :: post) in E'
      by now rewrite <- app_assoc.
    destruct (claim_reached (readlines (skipn start file_data))) as [Ho _].
    destruct (Ho _ _ _ _ _ _ E')
      as (pre' & ls0 & l2 & ls' & tr0 & Hpre & Hls & Hp & Hopen & Hgrant & Hahead).
    apply app_inj_tail in Hpre as [-> Hl2]. injection Hl2 as <-.
    (* the lines of the file from [p] on *)
    assert (Hlp : readlines (skipn p file_data) = l :: ls').
    { pose proof (readlines_skipn ls0 (l :: ls') (skipn start file_data) Hls) as Hs.
      rewrite skipn_skipn in Hs. rewrite <- Hs. do 2 f_equal. lia. }
    assert (Hls' : readlines (skipn (p + length l) file_data) = ls').
    { apply readlines_head in Hlp as [_ Hs]. rewrite skipn_skipn in Hs.
      rewrite <- Hs. do 2 f_equal. lia. }
    rewrite Hls' in Hrest.
    split.
    - unfold records. rewrite tag_iterator_events. fold start.
      rewrite Hls, Hahead, seeking_open_cons, Hopen, <- Hgrant.
      rewrite seeking_close_dropped by assumption.
      cbn [records_of]. rewrite !records_of_app. cbn [records_of].
      rewrite records_of_app, records_of_reads. simpl.
      now rewrite app_nil_r.
    - (* the lines of the completed file *)
      assert (Hstart : start <= length file_data).
      { destruct (Nat.le_gt_cases start (length file_data)) as [|Hgt]; [assumption|].
        rewrite skipn_all2 in Hls by lia. destruct ls0; discriminate. }
      assert (Hple : p <= length file_data).
      { destruct (Nat.le_gt_cases p (length file_data)) as [|Hgt]; [assumption|].
        rewrite skipn_all2 in Hlp by lia. discriminate. }
      assert (Hsplit : skipn start file_data = concat ls0 ++ skipn p file_data).
      { rewrite <- (concat_readlines (skipn start file_data)), Hls, concat_app.
        f_equal. rewrite <- Hlp. apply concat_readlines. }
      pose proof (prefix_lines_end _ _ _ _ Hls) as Hends.
      assert (Hhead : readlines (concat ls0) = ls0).
      { pose proof Hls as Hls2.
        rewrite Hsplit, (readlines_app _ Hends), Hlp in Hls2.
        now apply app_inv_tail in Hls2. }
      assert (Hl' : contains (open_tag self) l' = true).
      { apply readlines_head in Hcompl as [<- _].
        rewrite skipn_app. replace (p - length file_data) with 0 by lia.
        simpl skipn. destruct (take_line_app (skipn p file_data) completion)
          as [z ->].
        apply readlines_head in Hlp as [-> _]. now apply contains_app_l. }
      rewrite tag_iterator_records. fold start.
      assert (Hlines : readlines (skipn start (file_data ++ completion))
                       = ls0 ++ l' :: more ++ c :: trailing).
      { rewrite skipn_app. replace (start - length file_data) with 0 by lia.
        simpl skipn. rewrite Hsplit, <- app_assoc.
        rewrite (readlines_app _ Hends), Hhead. f_equal.
        rewrite <- Hcompl, skipn_app.
        replace (p - length file_data) with 0 by lia. reflexivity. }
      rewrite Hlines, Hahead, seeking_open_cons, Hl', <- Hgrant.
      rewrite seeking_close_found by assumption.
      rewrite seeking_open_exhausts by assumption.
      rewrite !records_of_app. cbn [records_of].
      rewrite !records_of_app, !records_of_reads. cbn [records_of app].
      rewrite records_of_app, records_of_reads. cbn [records_of app].
      unfold join. simpl. rewrite concat_app. simpl. rewrite app_nil_r.
      reflexivity. }
  destruct Hrec as [Hr1 Hr2].
  rewrite tag_iterator_terminates, Hr1, Hr2, length_app. simpl.
  repeat split. lia.
Qed.

End Truncation.

(** ** Scans under an offset range tracker *)

Section Ranges.

Variable self : XmlFileSource.

Lemma claim_granted s e last pos :
  s <= pos -> pos < e -> last_ok last pos ->
  try_claim pos (mkTracker s e last) = (true, mkTracker s e (Some pos)).
Proof.
  intros Hs He Hlast. simpl. unfold offset_try_claim. simpl.
  apply Nat.leb_le in Hs. apply Nat.ltb_lt in He. rewrite Hs, He. simpl.
  destruct last as [q|]; [|reflexivity].
  simpl in Hlast. apply Nat.leb_le in Hlast. now rewrite Hlast.
Qed.

Lemma claim_refused s e last pos :
  e <= pos -> try_claim pos (mkTracker s e last) = (false, mkTracker s e last).
Proof.
  intros He. simpl. unfold offset_try_claim. simpl.
  apply Nat.ltb_ge in He. rewrite He. now rewrite andb_false_r.
Qed.

(** Past the end of its range a scan emits nothing. *)
Lemma beyond_range ls pos s e last :
  e <= pos ->
  records_of (seeking_open self ls pos (mkTracker s e last)) = [].
Proof.
  revert pos. induction ls as [|l ls IH]; intros pos He; [reflexivity|].
  rewrite seeking_open_cons. cbn [records_of].
  destruct (contains (open_tag self) l).
  - rewrite claim_refused by assumption. reflexivity.
  - apply IH. lia.
Qed.

(** Lines without the open marker are passed over. *)
Lemma seeking_open_skips gap ls pos (tr : OffsetRangeTracker) :
  Forall (no_open self) gap ->
  records_of (seeking_open self (gap ++ ls) pos tr)
  = records_of (seeking_open self ls (pos + length (concat gap)) tr).
Proof.
  intros Hgap. revert pos.
  induction Hgap as [|l gap Hl Hgap IH]; intros pos.
  - simpl. now rewrite Nat.add_0_r.
  - cbn [app]. rewrite seeking_open_cons. cbn [records_of]. unfold no_open in Hl. rewrite Hl, IH.
    simpl. now rewrite length_app, Nat.add_assoc.
Qed.

Lemma length_record o body c (ls : list bytes) :
  length (concat (o :: body ++ c :: ls))
  = length o + length (concat body) + length c + length (concat ls).
Proof. simpl. rewrite length_app, concat_app, length_app. simpl. rewrite length_app. lia. Qed.


(** A scan whose range covers the lines ahead emits every record of their
    layout. *)
Lemma scan_layout ls recs :
  layout self ls recs ->
  Forall (fun l => l <> []) ls ->
  forall pos s e last,
    s <= pos -> pos + length (concat ls) <= e -> last_ok last pos ->
    records_of (seeking_open self ls pos (mkTracker s e last)) = map join recs.
Proof.
  induction 1 as [|l ls recs Hl Hlay IH|o body c ls recs Ho Hbody Hc Hco Hlay IH];
    intros Hne pos s e last Hs He Hlast.
  - reflexivity.
  - rewrite seeking_open_cons. cbn [records_of]. unfold no_open in Hl. rewrite Hl.
    inversion Hne; subst. simpl in He. rewrite length_app in He.
    apply IH; try assumption; try lia.
    destruct last; simpl in *; lia.
  - rewrite length_record in He.
    assert (Hone : o <> []) by now inversion Hne.
    assert (Hlen : 0 < length o) by (destruct o; [easy | simpl; lia]).
    assert (Hne' : Forall (fun l => l <> []) ls).
    { inversion Hne as [|? ? _ Hne1]; subst.
      apply Forall_app in Hne1 as [_ Hne1]. now inversion Hne1. }
    rewrite seeking_open_cons. cbn [records_of]. rewrite Ho.
    rewrite claim_granted by (assumption || lia). cbn [fst snd records_of].
    rewrite seeking_close_found;
      [|eapply Forall_impl; [|exact Hbody]; now intros ? [_ ?] | assumption].
    rewrite records_of_app, records_of_reads. cbn [app records_of map].
    f_equal.
    apply IH; try assumption; simpl; lia.
Qed.

End Ranges.

(** ** Reading from a split point *)

Lemma take_line_skipn (s : bytes) (j : nat) :
  j < length (take_line s) -> take_line (skipn j s) = skipn j (take_line s).
Proof.
  revert j; induction s as [|c s IH]; intros j Hj; [simpl in Hj; lia|].
  destruct j as [|j]; [reflexivity|]. simpl in *.
  destruct (Ascii.eqb c newline); simpl in *; [lia|].
  apply IH. lia.
Qed.

Lemma lines_from_readlines (k : nat) (ls : list bytes) :
  forall (s : bytes) (pos : nat),
    readlines s = ls -> pos <= k ->
    readlines (skipn (k - pos) s) = lines_from k pos ls.
Proof.
  induction ls as [|l ls IH]; intros s pos Hs Hpos.
  - apply readlines_nil in Hs. subst s. now rewrite skipn_nil.
  - pose proof (readlines_nonempty s) as Hne. rewrite Hs in Hne.
    apply Forall_inv in Hne.
    pose proof Hs as Hs'. apply readlines_head in Hs' as [Hl Hrest].
    cbn [lines_from].
    destruct (k <=? pos) eqn:Hk.
    + apply Nat.leb_le in Hk. replace (k - pos) with 0 by lia. exact Hs.
    + apply Nat.leb_gt in Hk.
      destruct (k <? pos + length l) eqn:Hin.
      * apply Nat.ltb_lt in Hin.
        assert (Hj : k - pos < length (take_line s)) by (rewrite Hl; lia).
        pose proof (take_line_skipn s Hj) as Htl. rewrite Hl in Htl.
        assert (Hnil : skipn (k - pos) s <> []).
        { intros Habs. rewrite Habs in Htl. simpl in Htl.
          apply (f_equal (@length ascii)) in Htl. rewrite length_skipn in Htl.
          simpl in Htl. lia. }
        rewrite (readlines_unfold Hnil), Htl. f_equal.
        rewrite skipn_skipn, length_skipn.
        replace (length l - (k - pos) + (k - pos)) with (length l) by lia.
        exact Hrest.
      * apply Nat.ltb_ge in Hin.
        rewrite <- (IH (skipn (length l) s) (pos + length l) Hrest Hin).
        rewrite skipn_skipn.
        replace (k - (pos + length l) + length l) with (k - pos) by lia.
        reflexivity.
Qed.

Section Splitting.

Variable self : XmlFileSource.
Variables k e : nat.

Lemma skippable_past pos ls :
  k <= pos -> skippable self k pos ls -> Forall (no_open self) ls.
Proof.
  revert pos; induction ls as [|l ls IH]; intros pos Hk Hskip; [constructor|].
  destruct Hskip as (Hl & _ & Hskip). constructor; [now apply Hl|].
  apply (IH (pos + length l)); [lia | assumption].
Qed.

Lemma skippable_no_open pos ls :
  Forall (no_open self) ls -> skippable self k pos ls.
Proof.
  intros Hls. revert pos. induction Hls as [|l ls Hl Hls IH]; intros pos; [exact I|].
  repeat split; [intros; assumption | | apply IH].
  intros _ _. now apply contains_skipn.
Qed.

Lemma split_clean_app pos gap ls :
  split_clean self k pos (gap ++ ls) ->
  split_clean self k (pos + length (concat gap)) ls.
Proof.
  revert pos; induction gap as [|g gap IH]; intros pos Hc; simpl in *.
  - now rewrite Nat.add_0_r.
  - destruct Hc as [_ Hc]. apply IH in Hc.
    now rewrite length_app, Nat.add_assoc.
Qed.

(** What the reader of the second range emits for the lines [gap ++ ls]
    when it has nothing to claim in [gap]. *)
Lemma skip_to_split gap (tr : OffsetRangeTracker) :
  Forall (fun l => l <> []) gap ->
  forall pos ls,
    pos <= k -> skippable self k pos gap ->
    records_of (seeking_open self (lines_from k pos (gap ++ ls)) k tr)
    = if pos + length (concat gap) <=? k
      then records_of
             (seeking_open self (lines_from k (pos + length (concat gap)) ls) k tr)
      else records_of (seeking_open self ls (pos + length (concat gap)) tr).
Proof.
  induction 1 as [|g gap Hg Hne IH]; intros pos ls Hpos Hskip.
  - simpl. rewrite Nat.add_0_r. apply Nat.leb_le in Hpos. now rewrite Hpos.
  - assert (Hlen : 0 < length g) by (destruct g; [easy | simpl; lia]).
    assert (Hcat : length (concat (g :: gap)) = length g + length (concat gap))
      by (simpl; now rewrite length_app).
    rewrite Hcat. cbn [app lines_from].
    destruct (k <=? pos) eqn:Hk.
    + apply Nat.leb_le in Hk. assert (pos = k) as -> by lia.
      assert (Hall : Forall (no_open self) (g :: gap))
        by (apply skippable_past with (pos := k); [lia | assumption]).
      change (g :: gap ++ ls) with ((g :: gap) ++ ls).
      rewrite seeking_open_skips by assumption. rewrite Hcat.
      replace (k + (length g + length (concat gap)) <=? k) with false
        by (symmetry; apply Nat.leb_gt; lia).
      reflexivity.
    + apply Nat.leb_gt in Hk. destruct Hskip as (_ & Hpart & Hskip).
      destruct (k <? pos + length g) eqn:Hin.
      * apply Nat.ltb_lt in Hin. specialize (Hpart Hk Hin).
        rewrite seeking_open_cons. unfold no_open in Hpart. rewrite Hpart.
        cbn [records_of].
        assert (Hall : Forall (no_open self) gap)
          by (apply skippable_past with (pos := pos + length g); [lia | assumption]).
        rewrite seeking_open_skips by assumption.
        rewrite length_skipn.
        replace (k + (length g - (k - pos))) with (pos + length g) by lia.
        replace (pos + (length g + length (concat gap)) <=? k) with false
          by (symmetry; apply Nat.leb_gt; lia).
        now rewrite Nat.add_assoc.
      * apply Nat.ltb_ge in Hin.
        rewrite (IH (pos + length g) ls Hin Hskip).
        now rewrite !Nat.add_assoc.
Qed.

End Splitting.

Section SplitRuns.

Variable self : XmlFileSource.
Variables k e : nat.
Hypothesis k_le_e : k <= e.

Lemma last_ok_le last pos pos' : pos <= pos' -> last_ok last pos -> last_ok last pos'.
Proof. destruct last; simpl; lia. Qed.

(** From offset [k] on, the first range emits nothing and the second range
    everything. *)
Lemma split_at_boundary ls recs last :
  layout self ls recs ->
  Forall (fun l => l <> []) ls ->
  forall pos,
    k <= pos -> pos + length (concat ls) <= e ->
    records_of (seeking_open self ls pos (mkTracker 0 k last))
    ++ records_of (seeking_open self ls pos (mkTracker k e None))
    = map join recs.
Proof.
  intros Hlay Hne pos Hk He.
  rewrite beyond_range by assumption.
  now apply scan_layout.
Qed.

Lemma length_span o (body : list bytes) c :
  length (concat (o :: body ++ [c]))
  = length o + length (concat body) + length c.
Proof. simpl. rewrite length_app, concat_app, length_app. simpl. rewrite app_nil_r. lia. Qed.

(** The two ranges [[0,k)] and [[k,e)] share out the records of a layout:
    the first reads the lines from [pos <= k] on, the second what a reader
    that starts at [k] finds. *)
Lemma split_scan ls recs :
  layout self ls recs ->
  Forall (fun l => l <> []) ls ->
  forall pos last,
    pos <= k -> split_clean self k pos ls -> last_ok last pos ->
    pos + length (concat ls) = e ->
    records_of (seeking_open self ls pos (mkTracker 0 k last))
    ++ records_of (seeking_open self (lines_from k pos ls) k (mkTracker k e None))
    = map join recs.
Proof.
  induction 1 as [|l ls recs Hl Hlay IH|o body c ls recs Ho Hbody Hc Hco Hlay IH];
    intros Hne pos last Hpos Hclean Hlast He.
  - reflexivity.
  - destruct (Nat.eq_dec pos k) as [->|Hneq].
    + cbn [lines_from]. rewrite Nat.leb_refl.
      apply split_at_boundary; try assumption; try lia.
      now constructor.
    + pose proof (Forall_inv Hne) as Hl0. pose proof (Forall_inv_tail Hne) as Hne'.
      assert (Hlen : 0 < length l) by (destruct l; [easy | simpl; lia]).
      simpl in He. rewrite length_app in He.
      rewrite seeking_open_cons. pose proof Hl as Hl'. unfold no_open in Hl'.
      rewrite Hl'. cbn [records_of].
      change (l :: ls) with ([l] ++ ls).
      rewrite skip_to_split;
        [ | repeat constructor; assumption | lia
          | apply skippable_no_open; repeat constructor; assumption ].
      simpl concat. rewrite app_nil_r.
      destruct Hclean as [_ Hclean].
      destruct (pos + length l <=? k) eqn:Hend.
      * apply Nat.leb_le in Hend.
        apply IH; try assumption; try lia.
        apply last_ok_le with (pos := pos); [lia | assumption].
      * apply Nat.leb_gt in Hend.
        apply split_at_boundary; try assumption; lia.
  - destruct (Nat.eq_dec pos k) as [->|Hneq].
    + cbn [lines_from]. rewrite Nat.leb_refl.
      apply split_at_boundary; try assumption; try lia.
      now constructor.
    + assert (Hone : o <> []) by now inversion Hne.
      assert (Hlen : 0 < length o) by (destruct o; [easy | simpl; lia]).
      assert (Hne' : Forall (fun l => l <> []) (o :: body ++ [c])
                     /\ Forall (fun l => l <> []) ls).
      { pose proof (Forall_inv_tail Hne) as Hne1.
        apply Forall_app in Hne1 as [Hb Hne1].
        split; [|exact (Forall_inv_tail Hne1)]. constructor; [assumption|].
        apply Forall_app. split; [assumption|].
        constructor; [exact (Forall_inv Hne1) | constructor]. }
      destruct Hne' as [Hspan Hne'].
      assert (Hnoclose : Forall (no_close self) body)
        by (eapply Forall_impl; [|exact Hbody]; now intros ? [_ ?]).
      assert (Hnoopen : Forall (no_open self) (body ++ [c])).
      { apply Forall_app. split; [|now repeat constructor].
        eapply Forall_impl; [|exact Hbody]. now intros ? [? _]. }
      rewrite length_record in He.
      set (pe := pos + length o + length (concat body) + length c).
      rewrite seeking_open_cons, Ho.
      rewrite claim_granted by (assumption || lia). cbn [fst snd records_of].
      rewrite seeking_close_found by assumption.
      rewrite records_of_app, records_of_reads. cbn [app records_of]. fold pe.
      replace (o :: body ++ c :: ls) with ((o :: body ++ [c]) ++ ls) in *
        by (simpl; now rewrite <- app_assoc).
      rewrite skip_to_split; [ | assumption | lia | ].
      2:{ destruct Hclean as [Hpart _]. repeat split.
          - intros; lia.
          - exact Hpart.
          - now apply skippable_no_open. }
      apply split_clean_app in Hclean.
      rewrite length_span in *.
      replace (pos + (length o + length (concat body) + length c)) with pe in *
        by (unfold pe; lia).
      cbn [map app]. f_equal.
      destruct (pe <=? k) eqn:Hend.
      * apply Nat.leb_le in Hend.
        apply IH; try assumption; [simpl; unfold pe; lia | unfold pe; lia].
      * apply Nat.leb_gt in Hend.
        apply split_at_boundary; try assumption; unfold pe; lia.
Qed.

End SplitRuns.

(** ** Whole files and split files *)

Lemma py_or_some (p : nat) : py_or (Some p) 0 = p.
Proof. now destruct p. Qed.

Section Files.

Variable self : XmlFileSource.

Lemma whole_file_scan (file_data : bytes) (recs : list (list bytes)) :
  layout self (readlines file_data) recs ->
  whole_records self file_data = map join recs.
Proof.
  intros Hlay. unfold whole_records.
  rewrite tag_iterator_records. simpl start_position. rewrite py_or_some.
  simpl skipn. unfold OffsetRangeTracker_init.
  apply scan_layout; try assumption; simpl; try lia.
  - apply readlines_nonempty.
  - now rewrite concat_readlines.
Qed.

(** C1 (amended). When the lines of the file are [N] records, each on
    lines of its own, and lines without the open marker around them, one
    run with a tracker for [[0, file_length)] emits exactly these [N]
    records, each as the verbatim concatenation of its lines from the open
    line through the close line, in file order. *)
Theorem full_file_records (file_data : bytes) (recs : list (list bytes)) :
  layout self (readlines file_data) recs ->
  records (tag_iterator self file_data
             (OffsetRangeTracker_init 0 (length file_data)))
  = map (@concat ascii) recs
  /\ length (records (tag_iterator self file_data
                        (OffsetRangeTracker_init 0 (length file_data))))
     = length recs.
Proof.
  intros Hlay. apply whole_file_scan in Hlay. unfold whole_records in Hlay.
  assert (Hjoin : map join recs = map (@concat ascii) recs)
    by (apply map_ext; intros content; reflexivity).
  rewrite Hjoin in Hlay.
  split; [exact Hlay|]. now rewrite Hlay, length_map.
Qed.

Lemma split_clean_past k pos ls : k <= pos -> split_clean self k pos ls.
Proof.
  revert pos; induction ls as [|l ls IH]; intros pos Hk; [exact I|].
  split; [intros; lia | apply IH; lia].
Qed.

Lemma split_clean_of_file k ls :
  forall (s : bytes) (pos : nat),
    readlines s = ls -> pos <= k ->
    (exists before after, ls = before ++ after /\ pos + length (concat before) = k)
    \/ no_open self (take_line (skipn (k - pos) s)) ->
    split_clean self k pos ls.
Proof.
  induction ls as [|l ls IH]; intros s pos Hs Hpos Hk; [exact I|].
  pose proof (readlines_nonempty s) as Hne. rewrite Hs in Hne.
  apply Forall_inv in Hne.
  assert (Hlen : 0 < length l) by (destruct l; [easy | simpl; lia]).
  pose proof Hs as Hs'. apply readlines_head in Hs' as [Hl Hrest].
  split.
  - intros Hlt Hin. destruct Hk as [(before & after & E & Hb)|Hk].
    + destruct before as [|a before]; simpl in *; [lia|].
      injection E as <- _. rewrite length_app in Hb. lia.
    + rewrite take_line_skipn in Hk by (rewrite Hl; lia). now rewrite Hl in Hk.
  - destruct (Nat.le_gt_cases (pos + length l) k) as [Hle|Hgt];
      [|apply split_clean_past; lia].
    apply (IH (skipn (length l) s)); try assumption.
    destruct Hk as [(before & after & E & Hb)|Hk].
    + left. destruct before as [|a before]; simpl in *; [lia|].
      injection E as <- E. rewrite length_app in Hb.
      exists before, after. split; [assumption | lia].
    + right. rewrite skipn_skipn.
      now replace (k - (pos + length l) + length l) with (k - pos) by lia.
Qed.

(** C2 (amended). For a file laid out as in C1 and a split point [k] that
    is the start of a line, or whose line holds no open marker from [k]
    on, the runs over [[0,k)] and [[k, file_length)] together emit, in
    range order, exactly the records of the run over [[0, file_length)]:
    none twice, none missing; a record that starts before [k] is emitted
    whole by the first run. *)
Theorem split_runs_agree (file_data : bytes) (recs : list (list bytes)) (k : nat) :
  layout self (readlines file_data) recs ->
  k <= length file_data ->
  at_line_start k file_data \/ no_open self (take_line (skipn k file_data)) ->
  split_records self file_data k = whole_records self file_data
  /\ Permutation (split_records self file_data k) (whole_records self file_data).
Proof.
  intros Hlay Hk Hsplit.
  assert (E : split_records self file_data k = whole_records self file_data).
  { rewrite (@whole_file_scan file_data recs Hlay).
    unfold split_records. rewrite !tag_iterator_records.
    simpl start_position. rewrite !py_or_some. simpl skipn.
    unfold OffsetRangeTracker_init.
    rewrite <- (Nat.sub_0_r k) at 2.
    rewrite (@lines_from_readlines k (readlines file_data) file_data 0 eq_refl)
      by lia.
    apply split_scan; try assumption; simpl; try lia.
    - apply readlines_nonempty.
    - apply split_clean_of_file with (s := file_data); [reflexivity | lia |].
      rewrite Nat.sub_0_r. destruct Hsplit as [(before & after & E & Hb)|Hsplit].
      + left. now exists before, after.
      + now right.
    - now rewrite concat_readlines. }
  split; [exact E|]. now rewrite E.
Qed.

End Files.

(** ** The properties on the example files *)

Lemma wiki_layout : layout page (readlines wiki) wiki_pages.
Proof.
  change (readlines wiki) with wiki_lines.
  apply layout_between; [reflexivity|].
  apply (@layout_record page (ln "  <page>") [ln "    <title>A</title>"]
           (ln "  </page>")); try reflexivity;
    [repeat constructor|].
  apply (@layout_record page (ln "  <page>") [ln "    <title>B</title>"]
           (ln "  </page>")); try reflexivity;
    [repeat constructor|].
  apply layout_between; [reflexivity|]. apply layout_end.
Qed.

Lemma shared_line_occurrences :
  occurrences page shared_line_file
    [ b "<page>" ++ ln "" ++ ln "a" ++ b "</page>";
      b "<page>" ++ ln "" ++ ln "b" ++ b "</page>" ].
Proof.
  apply (@occurrences_next page [] (ln "" ++ ln "a")
           (b "<page>" ++ ln "" ++ ln "b" ++ b "</page>" ++ ln ""));
    [split; reflexivity | split; reflexivity | now left |].
  apply (@occurrences_next page [] (ln "" ++ ln "b") (ln ""));
    [split; reflexivity | split; reflexivity | now left |].
  apply occurrences_none. split; reflexivity.
Qed.

(** C1, as worded, fails on a file whose second record opens on the line
    that closes the first: two occurrences, one record emitted. *)
Lemma full_file_counterexample : ~ yields_every_occurrence page shared_line_file.
Proof.
  intros Hclaim. specialize (Hclaim _ shared_line_occurrences).
  vm_compute in Hclaim. discriminate Hclaim.
Qed.

(** C2, as worded, fails on the same file split at the start of its third
    line: the two ranges emit two records, the whole range one. *)
Lemma split_counterexample : ~ splits_agree page shared_line_file.
Proof.
  intros Hclaim.
  assert (Hk : 9 <= length shared_line_file) by (vm_compute; lia).
  specialize (Hclaim _ 9 shared_line_occurrences Hk).
  apply Permutation_length in Hclaim. vm_compute in Hclaim. discriminate Hclaim.
Qed.

(** A split point inside the indentation of an open-tag line: both ranges
    claim the record, the second one without the first byte of its line. *)
Example split_inside_indent_duplicates :
  whole_records page indented_file = [indented_file]
  /\ split_records page indented_file 1 = [indented_file; skipn 1 indented_file].
Proof. split; vm_compute; reflexivity. Qed.

Lemma full_file_records_witness :
  layout page (readlines wiki) wiki_pages
  /\ records (tag_iterator page wiki (OffsetRangeTracker_init 0 (length wiki)))
     = map (@concat ascii) wiki_pages
  /\ length (records (tag_iterator page wiki
                        (OffsetRangeTracker_init 0 (length wiki))))
     = length wiki_pages.
Proof.
  split; [exact wiki_layout|].
  exact (@full_file_records page wiki wiki_pages wiki_layout).
Defined.

Lemma split_runs_agree_witness :
  layout page (readlines wiki) wiki_pages
  /\ 30 <= length wiki
  /\ (at_line_start 30 wiki \/ no_open page (take_line (skipn 30 wiki)))
  /\ split_records page wiki 30 = whole_records page wiki
  /\ Permutation (split_records page wiki 30) (whole_records page wiki).
Proof.
  assert (Hk : 30 <= length wiki) by (vm_compute; lia).
  assert (Hsplit : at_line_start 30 wiki \/ no_open page (take_line (skipn 30 wiki)))
    by (right; reflexivity).
  split; [exact wiki_layout|]. split; [exact Hk|]. split; [exact Hsplit|].
  exact (@split_runs_agree page wiki wiki_pages 30 wiki_layout Hk Hsplit).
Defined.

Lemma refused_claim_ends_run_witness :
  let r := tag_iterator page wiki (OffsetRangeTracker_init 0 10) in
  events r
  = [Seek 0; Readline 0 (ln "<mediawiki>"); Readline 12 (ln "  <page>")]
    ++ TryClaim 12 false :: []
  /\ ([] = @nil event
      /\ snd r = Raise StopIteration
      /\ observed (snd r) = Some EndOfSequence).
Proof.
  intros r.
  assert (Hrun : events r
                 = [Seek 0; Readline 0 (ln "<mediawiki>"); Readline 12 (ln "  <page>")]
                   ++ TryClaim 12 false :: [])
    by (vm_compute; reflexivity).
  split; [exact Hrun|].
  exact (@refused_claim_ends_run OffsetRangeTracker _ page wiki
           (OffsetRangeTracker_init 0 10) _ 12 [] Hrun).
Defined.

Lemma claim_follows_open_line_witness :
  let r := tag_iterator page wiki (OffsetRangeTracker_init 0 (length wiki)) in
  events r = firstn 3 (events r) ++ TryClaim 12 true :: skipn 4 (events r)
  /\ exists pre' line,
       firstn 3 (events r) = pre' ++ [Readline 12 line]
       /\ line = take_line (skipn 12 wiki)
       /\ contains (open_tag page) line = true
       /\ exists before after, line = before ++ open_tag page ++ after.
Proof.
  intros r.
  assert (Hrun : events r
                 = firstn 3 (events r) ++ TryClaim 12 true :: skipn 4 (events r))
    by (vm_compute; reflexivity).
  split; [exact Hrun|].
  exact (@claim_follows_open_line OffsetRangeTracker _ page wiki
           (OffsetRangeTracker_init 0 (length wiki)) _ 12 true _ Hrun).
Defined.

Lemma same_line_close_ignored_witness :
  let r := tag_iterator page same_line_file
             (OffsetRangeTracker_init 0 (length same_line_file)) in
  let l := ln "<page>x</page>" in
  let post := skipn 3 (events r) in
  events r = [Seek 0] ++ Readline 0 l :: TryClaim 0 true :: post
  /\ contains (open_tag page) l = true
  /\ contains (close_tag page) l = true
  /\ ((exists more c post',
          Forall (no_close page) more /\ contains (close_tag page) c = true
          /\ c <> []
          /\ post = reads (0 + length l) more
                    ++ Readline (0 + length l + length (concat more)) c
                       :: Yield (l ++ concat more ++ c) :: post'
          /\ l ++ concat more ++ c <> l)
      \/
      (exists more,
          Forall (no_close page) more
          /\ post = reads (0 + length l) more
                    ++ [Readline (0 + length l + length (concat more)) []]
          /\ records_of post = [])).
Proof.
  intros r l post.
  assert (Hrun : events r = [Seek 0] ++ Readline 0 l :: TryClaim 0 true :: post)
    by (vm_compute; reflexivity).
  assert (Hopen : contains (open_tag page) l = true) by reflexivity.
  assert (Hclose : contains (close_tag page) l = true) by reflexivity.
  split; [exact Hrun|]. split; [exact Hopen|]. split; [exact Hclose|].
  exact (@same_line_close_ignored OffsetRangeTracker _ page same_line_file
           (OffsetRangeTracker_init 0 (length same_line_file))
           [Seek 0] 0 l post Hrun Hopen Hclose).
Defined.

Lemma truncated_record_dropped_witness :
  let tracker := OffsetRangeTracker_init 0 (length wiki) in
  let r := tag_iterator page wiki_truncated tracker in
  let l := ln "  <page>" in
  let more := [ln "    <title>B</title>"] in
  let c := ln "  </page>" in
  let trailing := [ln "</mediawiki>"] in
  events r = firstn 7 (events r) ++ Readline 52 l :: TryClaim 52 true
                                   :: skipn 9 (events r)
  /\ Forall (no_close page) (readlines (skipn (52 + length l) wiki_truncated))
  /\ readlines (skipn 52 (wiki_truncated ++ wiki_rest))
     = l :: more ++ c :: trailing
  /\ Forall (no_close page) more
  /\ contains (close_tag page) c = true
  /\ Forall (no_open page) trailing
  /\ (snd r = Raise StopIteration
      /\ observed (snd r) = Some EndOfSequence
      /\ records r = records_of (firstn 7 (events r))
      /\ records (tag_iterator page (wiki_truncated ++ wiki_rest) tracker)
         = records_of (firstn 7 (events r)) ++ [l ++ concat more ++ c]
      /\ S (length (records r))
         = length (records (tag_iterator page (wiki_truncated ++ wiki_rest)
                              tracker))).
Proof.
  intros tracker r l more c trailing.
  assert (Hrun : events r
                 = firstn 7 (events r) ++ Readline 52 l :: TryClaim 52 true
                                          :: skipn 9 (events r))
    by (vm_compute; reflexivity).
  assert (Hrest : Forall (no_close page)
                    (readlines (skipn (52 + length l) wiki_truncated)))
    by (vm_compute; repeat constructor).
  assert (Hcompl : readlines (skipn 52 (wiki_truncated ++ wiki_rest))
                   = l :: more ++ c :: trailing)
    by (vm_compute; reflexivity).
  assert (Hmore : Forall (no_close page) more) by (repeat constructor).
  assert (Hc : contains (close_tag page) c = true) by reflexivity.
  assert (Htrail : Forall (no_open page) trailing) by (repeat constructor).
  repeat (split; [assumption|]).
  exact (@truncated_record_dropped OffsetRangeTracker _ page wiki_truncated
           wiki_rest tracker _ 52 l _ l more c trailing
           Hrun Hrest Hcompl Hmore Hc Htrail).
Defined.

(** C5, as worded, fails on a file cut inside its open-tag line when the
    completion closes the record on that same line: the run drops the
    record on the cut file and on the completed file alike. *)
Lemma truncation_counterexample :
  ~ truncation_drops_one page cut_open_line closing_on_line
      (OffsetRangeTracker_init 0 (length (cut_open_line ++ closing_on_line))).
Proof.
  intros Hclaim.
  specialize (Hclaim [Seek 0] 0 (b "<page>") [Readline 6 []]
                [] (b "x") [newline]).
  assert (Habs : 1 = 0); [|discriminate Habs].
  apply Hclaim; try (split; reflexivity); try reflexivity.
  vm_compute. constructor.
Qed.

Lemma end_of_stream_ends_run_witness :
  let r := tag_iterator page wiki (OffsetRangeTracker_init 0 (length wiki)) in
  events r = firstn 13 (events r) ++ Readline 105 [] :: []
  /\ ([] = @nil event
      /\ snd r = Raise StopIteration
      /\ observed (snd r) = Some EndOfSequence).
Proof.
  intros r.
  assert (Hrun : events r = firstn 13 (events r) ++ Readline 105 [] :: [])
    by (vm_compute; reflexivity).
  split; [exact Hrun|].
  exact (@end_of_stream_ends_run OffsetRangeTracker _ page wiki
           (OffsetRangeTracker_init 0 (length wiki)) _ 105 [] Hrun).
Defined.

Lemma record_is_span_witness :
  let tracker := OffsetRangeTracker_init 0 (length wiki) in
  let r := ln "  <page>" ++ ln "    <title>B</title>" ++ ln "  </page>" in
  In r (records (tag_iterator page wiki tracker))
  /\ exists before first mid last after,
       readlines (skipn (py_or (start_position tracker) 0) wiki)
       = before ++ (first :: mid ++ [last]) ++ after
       /\ r = first ++ concat mid ++ last
       /\ contains (open_tag page) first = true
       /\ Forall (no_close page) mid
       /\ contains (close_tag page) last = true.
Proof.
  intros tracker r.
  assert (Hin : In r (records (tag_iterator page wiki tracker)))
    by (vm_compute; right; left; reflexivity).
  split; [exact Hin|].
  exact (@record_is_span OffsetRangeTracker _ page wiki tracker r Hin).
Defined.

(** * Further properties of the source *)

(** ** The loop bound *)

Section Fuel.

Context {T : Type} `{RangeTracker T}.
Variable self : XmlFileSource.

(** X1. The [while True:] loop of [tag_iterator] ends on every file and every
    tracker: the step bound of the model is never reached, more steps
    change nothing, and the generator is left by [StopIteration]. *)
Theorem tag_iterator_enough_fuel (file_data : bytes) (tracker : T) (extra : nat) :
  let start := py_or (start_position tracker) 0 in
  emit (Seek start)
    (while_true self (2 * length file_data + 4 + extra)
       (mkState (seek start (mkFile file_data 0)) false tracker))
  = tag_iterator self file_data tracker
  /\ snd (tag_iterator self file_data tracker) = Raise StopIteration.
Proof.
  intros start. rewrite tag_iterator_scan. fold start. split; [|reflexivity].
  set (s := mkState (seek start (mkFile file_data 0)) false tracker).
  assert (Hlen : length (readlines (skipn start file_data)) <= length file_data).
  { etransitivity; [apply readlines_length|]. rewrite length_skipn. lia. }
  replace (2 * length file_data + 4 + extra)
    with (S (2 * length file_data + 3 + extra)) by lia.
  rewrite while_true_S.
  destruct (loops_scan self (readlines (skipn start file_data))) as [Ho _].
  unfold tell. rewrite (Ho _ s); [reflexivity | reflexivity | reflexivity | lia].
Qed.

End Fuel.

(** ** What a run reads *)

Section Reading.

Context {T : Type} `{RangeTracker T}.
Variable self : XmlFileSource.

Lemma scan_reads (ls : list bytes) :
  (forall pos (tr : T),
      reads_from pos (seeking_open self ls pos tr)
      /\ exists rest,
           concat ls = concat (read_lines (seeking_open self ls pos tr)) ++ rest
           /\ (rest = []
               \/ exists p, In (TryClaim p false) (seeking_open self ls pos tr)))
  /\
  (forall pos content (tr : T),
      reads_from pos (seeking_close self ls pos content tr)
      /\ exists rest,
           concat ls
           = concat (read_lines (seeking_close self ls pos content tr)) ++ rest
           /\ (rest = []
               \/ exists p,
                    In (TryClaim p false) (seeking_close self ls pos content tr))).
Proof.
  induction ls as [|l ls [IHo IHc]]; split.
  - intros pos tr. simpl. split; [now split|]. exists []. split; [reflexivity | now left].
  - intros pos content tr. simpl. split; [now split|]. exists []. split; [reflexivity | now left].
  - intros pos tr. rewrite seeking_open_cons.
    destruct (contains (open_tag self) l).
    + destruct (fst (try_claim pos tr)) eqn:Hc.
      * destruct (IHc (pos + length l) [l] (snd (try_claim pos tr)))
          as [Hr (rest & Hcat & Hrest)].
        split; [simpl; now split|]. exists rest. simpl. rewrite Hcat, app_assoc.
        split; [reflexivity|].
        destruct Hrest as [->|[p Hin]]; [now left|].
        right. exists p. now right; right.
      * split; [simpl; now split|]. exists (concat ls). simpl.
        split; [now rewrite app_nil_r|].
        right. exists pos. right; left. reflexivity.
    + destruct (IHo (pos + length l) tr) as [Hr (rest & Hcat & Hrest)].
      split; [simpl; now split|]. exists rest. simpl. rewrite Hcat, app_assoc.
      split; [reflexivity|].
      destruct Hrest as [->|[p Hin]]; [now left|].
      right. exists p. now right.
  - intros pos content tr. rewrite seeking_close_cons.
    destruct (contains (close_tag self) l).
    + destruct (IHo (pos + length l) tr) as [Hr (rest & Hcat & Hrest)].
      split; [simpl; now split|]. exists rest. simpl. rewrite Hcat, app_assoc.
      split; [reflexivity|].
      destruct Hrest as [->|[p Hin]]; [now left|].
      right. exists p. now right; right.
    + destruct (IHc (pos + length l) (content ++ [l]) tr) as [Hr (rest & Hcat & Hrest)].
      split; [simpl; now split|]. exists rest. simpl. rewrite Hcat, app_assoc.
      split; [reflexivity|].
      destruct Hrest as [->|[p Hin]]; [now left|].
      right. exists p. now right.
Qed.

(** X2. A run reads the file once, front to back: the first read starts at
    the start position, every other read where the one before it ended,
    and the lines read, put end to end, are the file from the start
    position on, up to its end unless a claim was refused. *)
Theorem reads_front_to_back (file_data : bytes) (tracker : T) :
  let start := py_or (start_position tracker) 0 in
  let t := events (tag_iterator self file_data tracker) in
  reads_from start t
  /\ exists rest,
       skipn start file_data = concat (read_lines t) ++ rest
       /\ (rest = [] \/ exists p, In (TryClaim p false) t).
Proof.
  intros start t. unfold t. rewrite tag_iterator_events. fold start.
  destruct (scan_reads (readlines (skipn start file_data))) as [Ho _].
  destruct (Ho start tracker) as [Hr (rest & Hcat & Hrest)].
  rewrite concat_readlines in Hcat.
  split; [exact Hr|]. exists rest. split; [exact Hcat|].
  destruct Hrest as [->|[p Hin]]; [now left|]. right. exists p. now right.
Qed.

Lemma claim_positions_app (t1 t2 : list event) :
  claim_positions (t1 ++ t2) = claim_positions t1 ++ claim_positions t2.
Proof.
  induction t1 as [|e t1 IH]; [reflexivity|].
  destruct e; simpl; now rewrite IH.
Qed.

Lemma claim_positions_reads pos ls : claim_positions (reads pos ls) = [].
Proof. revert pos; induction ls as [|l ls IH]; intros pos; simpl; auto. Qed.

(** X3. When no line from the start position on contains the open marker (an
    empty file, a start position at or past the end of the file, a file
    without the element), the run reads every line once, calls [try_claim]
    not at all and emits nothing. *)
Theorem no_open_marker_no_claim (file_data : bytes) (tracker : T) :
  let start := py_or (start_position tracker) 0 in
  Forall (no_open self) (readlines (skipn start file_data)) ->
  events (tag_iterator self file_data tracker)
  = Seek start :: reads start (readlines (skipn start file_data))
    ++ [Readline (start + length (skipn start file_data)) []]
  /\ claim_positions (events (tag_iterator self file_data tracker)) = []
  /\ records (tag_iterator self file_data tracker) = [].
Proof.
  intros start Hall.
  assert (E : events (tag_iterator self file_data tracker)
              = Seek start :: reads start (readlines (skipn start file_data))
                ++ [Readline (start + length (skipn start file_data)) []]).
  { rewrite tag_iterator_events. fold start.
    rewrite seeking_open_exhausts by assumption.
    now rewrite concat_readlines. }
  unfold records. rewrite E. split; [reflexivity|]. split.
  - simpl. now rewrite claim_positions_app, claim_positions_reads.
  - simpl. now rewrite records_of_app, records_of_reads.
Qed.

End Reading.

(** ** What a run emits *)

Section Emitting.

Context {T : Type} `{RangeTracker T}.
Variable self : XmlFileSource.

Lemma spans_in_order_cons l ls recs :
  no_open self l -> spans_in_order self ls recs ->
  spans_in_order self (l :: ls) recs.
Proof.
  intros Hl Hs. destruct Hs as [ls|before first mid last after recs Hb Hf Hm Hla Hs].
  - constructor.
  - apply (@spans_next self (l :: before)); try assumption. now constructor.
Qed.

Lemma spans_in_order_length ls recs :
  spans_in_order self ls recs -> length (concat recs) <= length (concat ls).
Proof.
  induction 1 as [ls|before first mid last after recs Hb Hf Hm Hla Hs IH].
  - simpl. lia.
  - simpl concat. rewrite !concat_app. simpl concat. rewrite !concat_app.
    simpl concat. rewrite !length_app. simpl. lia.
Qed.

Lemma scan_spans (ls : list bytes) :
  (forall pos (tr : T),
      spans_in_order self ls (records_of (seeking_open self ls pos tr)))
  /\
  (forall pos content (tr : T),
      records_of (seeking_close self ls pos content tr) = []
      \/ exists mid last after recs,
           ls = mid ++ last :: after
           /\ Forall (no_close self) mid
           /\ contains (close_tag self) last = true
           /\ records_of (seeking_close self ls pos content tr)
              = join (content ++ mid ++ [last]) :: recs
           /\ spans_in_order self after recs).
Proof.
  induction ls as [|l ls [IHo IHc]]; split.
  - intros. constructor.
  - intros. now left.
  - intros pos tr. rewrite seeking_open_cons. cbn [records_of].
    destruct (contains (open_tag self) l) eqn:Ho.
    + cbn [records_of]. destruct (fst (try_claim pos tr)); [|constructor].
      destruct (IHc (pos + length l) [l] (snd (try_claim pos tr)))
        as [->|(mid & last & after & recs & -> & Hmid & Hlast & -> & Hs)];
        [constructor|].
      replace (l :: mid ++ last :: after)
        with ([] ++ (l :: mid ++ [last]) ++ after)
        by (simpl; now rewrite <- app_assoc).
      replace (join ([l] ++ mid ++ [last])) with (l ++ concat mid ++ last)
        by (unfold join; simpl; rewrite concat_app; simpl;
            now rewrite app_nil_r).
      now constructor.
    + apply spans_in_order_cons; [exact Ho | apply IHo].
  - intros pos content tr. rewrite seeking_close_cons. cbn [records_of].
    destruct (contains (close_tag self) l) eqn:Hcl.
    + right. exists [], l, ls. eexists. cbn [records_of app].
      repeat split; try assumption; [constructor | apply IHo].
    + destruct (IHc (pos + length l) (content ++ [l]) tr)
        as [->|(mid & last & after & recs & -> & Hmid & Hlast & -> & Hs)];
        [now left|].
      right. exists (l :: mid), last, after, recs.
      repeat split; try assumption; [now constructor|].
      now rewrite <- app_assoc.
Qed.

(** X4. The records of a run are disjoint runs of consecutive lines, in file
    order: no line is emitted twice, a record starts at the first line
    with the open marker after the record before it, and together the
    records are no longer than the part of the file that was scanned. *)
Theorem records_are_disjoint_spans (file_data : bytes) (tracker : T) :
  let start := py_or (start_position tracker) 0 in
  spans_in_order self (readlines (skipn start file_data))
    (records (tag_iterator self file_data tracker))
  /\ length (concat (records (tag_iterator self file_data tracker)))
     <= length file_data - start.
Proof.
  intros start. rewrite tag_iterator_records. fold start.
  destruct (scan_spans (readlines (skipn start file_data))) as [Ho _].
  split; [apply Ho|].
  etransitivity; [apply spans_in_order_length with (1 := Ho start tracker)|].
  now rewrite concat_readlines, length_skipn.
Qed.

Lemma scan_counts (ls : list bytes) :
  (forall pos (tr : T),
      let t := seeking_open self ls pos tr in
      length (records_of t) <= count_claims true t
      /\ count_claims true t <= S (length (records_of t))
      /\ count_claims false t <= 1)
  /\
  (forall pos content (tr : T),
      let t := seeking_close self ls pos content tr in
      count_claims true t <= length (records_of t)
      /\ length (records_of t) <= S (count_claims true t)
      /\ count_claims false t <= 1).
Proof.
  induction ls as [|l ls [IHo IHc]]; split.
  - intros; simpl; lia.
  - intros; simpl; lia.
  - intros pos tr t. unfold t. rewrite seeking_open_cons.
    cbn [records_of count_claims].
    destruct (contains (open_tag self) l).
    + cbn [records_of count_claims]. destruct (fst (try_claim pos tr)).
      * specialize (IHc (pos + length l) [l] (snd (try_claim pos tr))).
        simpl in *. lia.
      * simpl. lia.
    + apply IHo.
  - intros pos content tr t. unfold t. rewrite seeking_close_cons.
    cbn [records_of count_claims].
    destruct (contains (close_tag self) l).
    + cbn [records_of count_claims length].
      specialize (IHo (pos + length l) tr). simpl in *. lia.
    + apply IHc.
Qed.

(** X5. Every emitted record answers one granted claim, and at most one
    granted claim goes without its record (the record still open when the
    input ends); at most one claim of a run is refused. *)
Theorem records_match_claims (file_data : bytes) (tracker : T) :
  let r := tag_iterator self file_data tracker in
  length (records r) <= count_claims true (events r)
  /\ count_claims true (events r) <= S (length (records r))
  /\ count_claims false (events r) <= 1.
Proof.
  intros r. unfold r, records. rewrite tag_iterator_events.
  cbn [records_of count_claims].
  destruct (scan_counts
              (readlines (skipn (py_or (start_position tracker) 0) file_data)))
    as [Ho _].
  apply Ho.
Qed.

Lemma scan_claims_bounded (ls : list bytes) :
  Forall (fun l => l <> []) ls ->
  (forall pos (tr : T),
      Forall (fun p => pos <= p /\ p < pos + length (concat ls))
        (claim_positions (seeking_open self ls pos tr)))
  /\
  (forall pos content (tr : T),
      Forall (fun p => pos <= p /\ p < pos + length (concat ls))
        (claim_positions (seeking_close self ls pos content tr))).
Proof.
  induction 1 as [|l ls Hl _ [IHo IHc]]; split.
  - intros; constructor.
  - intros; constructor.
  - intros pos tr. rewrite seeking_open_cons. cbn [claim_positions].
    assert (Hlen : 0 < length l) by (destruct l; [easy | simpl; lia]).
    simpl concat. rewrite length_app.
    destruct (contains (open_tag self) l).
    + cbn [claim_positions]. constructor; [lia|].
      destruct (fst (try_claim pos tr)); [|constructor].
      eapply Forall_impl; [|apply IHc]. simpl. intros; lia.
    + eapply Forall_impl; [|apply IHo]. simpl. intros; lia.
  - intros pos content tr. rewrite seeking_close_cons. cbn [claim_positions].
    simpl concat. rewrite length_app.
    destruct (contains (close_tag self) l).
    + cbn [claim_positions]. eapply Forall_impl; [|apply IHo]. simpl. intros; lia.
    + eapply Forall_impl; [|apply IHc]. simpl. intros; lia.
Qed.

(** X6. Every position handed to [try_claim] is the offset of a byte of the
    file, at or after the start position. *)
Theorem claims_inside_file (file_data : bytes) (tracker : T) :
  Forall (fun p => py_or (start_position tracker) 0 <= p /\ p < length file_data)
    (claim_positions (events (tag_iterator self file_data tracker))).
Proof.
  rewrite tag_iterator_events. cbn [claim_positions].
  set (start := py_or (start_position tracker) 0).
  destruct (scan_claims_bounded (readlines_nonempty (skipn start file_data)))
    as [Ho _].
  eapply Forall_impl; [|apply Ho].
  simpl. intros p. rewrite concat_readlines, length_skipn. lia.
Qed.

End Emitting.

(** ** Records and their offsets *)

Lemma firstn_length_app (A : Type) (x y : list A) : firstn (length x) (x ++ y) = x.
Proof.
  rewrite <- (Nat.add_0_r (length x)), firstn_app_2. simpl. apply app_nil_r.
Qed.

Lemma within_shift (base : nat) (front s : bytes) (pr : nat * bytes) :
  within (base + length front) s pr -> within base (front ++ s) pr.
Proof.
  intros [Hle Hfirst]. split; [lia|].
  rewrite skipn_app, skipn_all2 by lia. simpl.
  now replace (fst pr - base - length front) with (fst pr - (base + length front))
    by lia.
Qed.

Section Offsets_of_records.

Context {T : Type} `{RangeTracker T}.
Variable self : XmlFileSource.

Lemma scan_within (ls : list bytes) :
  (forall pos (tr : T) claimed,
      Forall (within pos (concat ls))
        (emitted_at claimed (seeking_open self ls pos tr))
      /\ map snd (emitted_at claimed (seeking_open self ls pos tr))
         = records_of (seeking_open self ls pos tr))
  /\
  (forall pos content (tr : T) p0,
      p0 + length (concat content) = pos ->
      Forall (within p0 (concat content ++ concat ls))
        (emitted_at (Some p0) (seeking_close self ls pos content tr))
      /\ map snd (emitted_at (Some p0) (seeking_close self ls pos content tr))
         = records_of (seeking_close self ls pos content tr)).
Proof.
  induction ls as [|l ls [IHo IHc]]; split.
  - intros. simpl. split; [constructor | reflexivity].
  - intros. simpl. split; [constructor | reflexivity].
  - intros pos tr claimed. rewrite seeking_open_cons.
    cbn [emitted_at records_of].
    destruct (contains (open_tag self) l).
    + cbn [records_of]. destruct (fst (try_claim pos tr)).
      * cbn [emitted_at].
        destruct (IHc (pos + length l) [l] (snd (try_claim pos tr)) pos)
          as [Hw Hm]; [simpl; now rewrite app_nil_r|].
        split; [|exact Hm]. simpl in Hw. now rewrite app_nil_r in Hw.
      * simpl. split; [constructor | reflexivity].
    + destruct (IHo (pos + length l) tr claimed) as [Hw Hm].
      split; [|exact Hm].
      eapply Forall_impl; [|exact Hw]. intros pr. apply within_shift.
  - intros pos content tr p0 Hp0. rewrite seeking_close_cons.
    cbn [emitted_at records_of].
    destruct (contains (close_tag self) l).
    + cbn [emitted_at records_of map].
      destruct (IHo (pos + length l) tr (Some p0)) as [Hw Hm].
      split; [|now rewrite Hm]. constructor.
      * split; [simpl; lia|]. cbn [fst snd]. rewrite Nat.sub_diag. simpl skipn.
        unfold join. rewrite concat_app. simpl. rewrite app_nil_r, app_assoc.
        apply firstn_length_app.
      * eapply Forall_impl; [|exact Hw]. intros pr Hpr.
        simpl. rewrite app_assoc. apply within_shift.
        now rewrite length_app, Nat.add_assoc, Hp0.
    + destruct (IHc (pos + length l) (content ++ [l]) tr p0) as [Hw Hm].
      { rewrite concat_app, length_app. simpl. rewrite app_nil_r. lia. }
      split; [|exact Hm].
      rewrite concat_app in Hw. simpl in Hw.
      now rewrite app_nil_r, <- app_assoc in Hw.
Qed.

(** X7. Every emitted record is, byte for byte, the part of the file that
    begins at the offset claimed for it: [file[p : p + len(record)]]. *)
Theorem records_are_file_slices (file_data : bytes) (tracker : T) :
  let t := events (tag_iterator self file_data tracker) in
  Forall (fun pr => firstn (length (snd pr)) (skipn (fst pr) file_data) = snd pr)
    (emitted_at None t)
  /\ map snd (emitted_at None t) = records (tag_iterator self file_data tracker).
Proof.
  intros t. unfold t, records. rewrite tag_iterator_events.
  cbn [emitted_at records_of].
  set (start := py_or (start_position tracker) 0).
  destruct (scan_within (readlines (skipn start file_data))) as [Ho _].
  destruct (Ho start tracker None) as [Hw Hm].
  split; [|exact Hm].
  eapply Forall_impl; [|exact Hw]. intros pr [Hle Hfirst].
  rewrite concat_readlines, skipn_skipn in Hfirst.
  now rewrite Nat.sub_add in Hfirst by exact Hle.
Qed.

(** ** Growing files *)

Lemma scan_prefix (ahead more_lines : list bytes) :
  (forall pos (tr : T),
      exists more,
        records_of (seeking_open self (ahead ++ more_lines) pos tr)
        = records_of (seeking_open self ahead pos tr) ++ more)
  /\
  (forall pos content (tr : T),
      exists more,
        records_of (seeking_close self (ahead ++ more_lines) pos content tr)
        = records_of (seeking_close self ahead pos content tr) ++ more).
Proof.
  induction ahead as [|l ls [IHo IHc]]; split.
  - intros. eexists. simpl. reflexivity.
  - intros. eexists. simpl. reflexivity.
  - intros pos tr. cbn [app]. rewrite !seeking_open_cons. cbn [records_of].
    destruct (contains (open_tag self) l).
    + cbn [records_of]. destruct (fst (try_claim pos tr)).
      * apply IHc.
      * now exists [].
    + apply IHo.
  - intros pos content tr. cbn [app]. rewrite !seeking_close_cons.
    cbn [records_of].
    destruct (contains (close_tag self) l).
    + cbn [records_of]. destruct (IHo (pos + length l) tr) as [more ->].
      now exists more.
    + apply IHc.
Qed.

Lemma ends_with_newline_skipn (s : bytes) (n : nat) :
  s = [] \/ ends_with_newline s ->
  skipn n s = [] \/ ends_with_newline (skipn n s).
Proof.
  intros [->|[s0 ->]]; [left; apply skipn_nil|].
  destruct (Nat.le_gt_cases n (length s0)) as [Hle|Hgt].
  - right. exists (skipn n s0). rewrite skipn_app.
    now replace (n - length s0) with 0 by lia.
  - left. apply skipn_all2. rewrite length_app. simpl. lia.
Qed.

(** X8. Appending to a file that ends with a newline never changes a record
    already emitted: the run on the longer file emits the same records
    first, then possibly more. *)
Theorem appended_input_keeps_records (file_data extra : bytes) (tracker : T) :
  file_data = [] \/ ends_with_newline file_data ->
  exists more,
    records (tag_iterator self (file_data ++ extra) tracker)
    = records (tag_iterator self file_data tracker) ++ more.
Proof.
  intros Hend. rewrite !tag_iterator_records.
  set (start := py_or (start_position tracker) 0).
  destruct (Nat.le_gt_cases start (length file_data)) as [Hle|Hgt].
  - rewrite skipn_app. replace (start - length file_data) with 0 by lia.
    simpl skipn.
    rewrite readlines_app by now apply ends_with_newline_skipn.
    destruct (scan_prefix (readlines (skipn start file_data)) (readlines extra))
      as [Ho _].
    apply Ho.
  - rewrite (skipn_all2 file_data) by lia. simpl. eexists. reflexivity.
Qed.

End Offsets_of_records.

(** ** The markers *)

(** X9. Whatever the element name, both markers are non-empty and neither
    occurs inside the other: a close tag is never taken for an open tag,
    nor an open tag for a close tag. *)
Theorem markers_are_distinct (element : bytes) :
  let self := XmlFileSource_init element in
  open_tag self <> [] /\ close_tag self <> []
  /\ contains (open_tag self) (close_tag self) = false
  /\ contains (close_tag self) (open_tag self) = false.
Proof.
  intros self. split; [discriminate|]. split; [discriminate|]. split.
  - destruct (contains (open_tag self) (close_tag self)) eqn:E; [|reflexivity].
    exfalso. apply contains_spec in E as (before & after & E).
    unfold self in E. simpl in E.
    pose proof (f_equal (@length ascii) E) as Hlen.
    simpl in Hlen. rewrite !length_app in Hlen. simpl in Hlen.
    rewrite !length_app in Hlen. simpl in Hlen.
    destruct before as [|x before].
    + destruct after as [|y [|z after]]; simpl in Hlen; try lia.
      simpl in E. injection E as E.
      change ("/"%char :: element ++ [">"%char])
        with (("/"%char :: element) ++ [">"%char]) in E.
      apply app_inj_tail in E as [E _].
      apply (f_equal (fun l => count_occ ascii_dec l "/"%char)) in E.
      rewrite count_occ_app, count_occ_cons_eq in E by reflexivity.
      rewrite (@count_occ_cons_neq _ ascii_dec [] ">"%char "/"%char) in E
        by discriminate.
      simpl in E. lia.
    + destruct before; [|simpl in Hlen; lia].
      simpl in E. injection E as _ E. discriminate E.
  - destruct (contains (close_tag self) (open_tag self)) eqn:E; [|reflexivity].
    exfalso. apply contains_spec in E as (before & after & E).
    unfold self in E. simpl in E.
    apply (f_equal (@length ascii)) in E.
    simpl in E. rewrite !length_app in E. simpl in E.
    rewrite !length_app in E. simpl in E. lia.
Qed.

(** ** The further properties on the example files *)

Lemma no_open_marker_no_claim_witness :
  let tracker := OffsetRangeTracker_init 0 (length empty_wiki) in
  let start := py_or (start_position tracker) 0 in
  Forall (no_open page) (readlines (skipn start empty_wiki))
  /\ events (tag_iterator page empty_wiki tracker)
     = Seek start :: reads start (readlines (skipn start empty_wiki))
       ++ [Readline (start + length (skipn start empty_wiki)) []]
  /\ claim_positions (events (tag_iterator page empty_wiki tracker)) = []
  /\ records (tag_iterator page empty_wiki tracker) = [].
Proof.
  intros tracker start.
  assert (Hall : Forall (no_open page) (readlines (skipn start empty_wiki)))
    by (vm_compute; repeat constructor).
  split; [exact Hall|].
  exact (@no_open_marker_no_claim OffsetRangeTracker _ page empty_wiki tracker Hall).
Defined.

Lemma appended_input_keeps_records_witness :
  let tracker := OffsetRangeTracker_init 0 200 in
  (wiki = [] \/ ends_with_newline wiki)
  /\ exists more,
       records (tag_iterator page (wiki ++ indented_file) tracker)
       = records (tag_iterator page wiki tracker) ++ more.
Proof.
  intros tracker.
  assert (Hend : wiki = [] \/ ends_with_newline wiki)
    by (right; exists (removelast wiki); reflexivity).
  split; [exact Hend|].
  exact (@appended_input_keeps_records OffsetRangeTracker _ page wiki
           indented_file tracker Hend).
Defined.

(** ** The line generator and mid-line starts *)

Lemma take_line_split (s : bytes) :
  s = take_line s ++ skipn (length (take_line s)) s.
Proof.
  induction s as [|c s IH]; [reflexivity|]. simpl.
  destruct (Ascii.eqb c newline); simpl; [reflexivity|]. now rewrite <- IH.
Qed.

Lemma lines_from_inside (k : nat) (before : list bytes) (o : bytes)
  (after : list bytes) :
  forall pos,
    pos + length (concat before) < k ->
    k < pos + length (concat before) + length o ->
    lines_from k pos (before ++ o :: after)
    = skipn (k - (pos + length (concat before))) o :: after.
Proof.
  induction before as [|l before IH]; intros pos Hlo Hhi; simpl in *.
  - rewrite Nat.add_0_r in *.
    replace (k <=? pos) with false by (symmetry; apply Nat.leb_gt; lia).
    replace (k <? pos + length o) with true by (symmetry; apply Nat.ltb_lt; lia).
    reflexivity.
  - rewrite length_app in *.
    replace (k <=? pos) with false by (symmetry; apply Nat.leb_gt; lia).
    replace (k <? pos + length l) with false by (symmetry; apply Nat.ltb_ge; lia).
    rewrite IH by lia. now rewrite Nat.add_assoc.
Qed.

Section Generator.

Context {T : Type} `{RangeTracker T}.
Variable self : XmlFileSource.

(** X10. One step of [_iterable_gcs] on a generator that has not finished: it
    either hands out a non-empty line, and then [tell()] has advanced by
    exactly the length of that line and the line is what the file held
    there, or it finds the file exhausted, finishes, and never reads
    again. *)
Theorem iterable_gcs_step (s : @State T) :
  iterable_f_finished s = false ->
  match _iterable_gcs s with
  | (es, Some line, s') =>
      es = [Readline (tell (f s)) line] /\ line <> []
      /\ unread (f s) = line ++ unread (f s')
      /\ tell (f s') = tell (f s) + length line
      /\ iterable_f_finished s' = false
  | (es, None, s') =>
      es = [Readline (tell (f s)) []] /\ unread (f s) = []
      /\ iterable_f_finished s' = true
      /\ _iterable_gcs s' = ([], None, s')
  end.
Proof.
  intros Hrun. unfold _iterable_gcs, readline. rewrite Hrun.
  destruct (unread (f s)) as [|c u] eqn:Hu.
  - simpl. repeat split.
  - pose proof (@take_line_nonempty (c :: u) ltac:(easy)) as Hne.
    destruct (take_line (c :: u)) as [|c' l'] eqn:Hline; [easy|].
    cbn [f iterable_f_finished tell offset].
    repeat split; try easy.
    unfold unread in *. cbn [data offset].
    rewrite Nat.add_comm, <- skipn_skipn, Hu, <- Hline.
    apply take_line_split.
Qed.

(** X11. A run whose start position [k] falls inside a line takes what is left
    of that line for a line: when that rest contains the open marker, the
    first [try_claim] is called with [k] itself, which is not the offset
    of the line. *)
Theorem start_inside_line (file_data : bytes) (tracker : T) (k : nat)
  (before : list bytes) (o : bytes) (after : list bytes) :
  start_position tracker = Some k ->
  readlines file_data = before ++ o :: after ->
  length (concat before) < k ->
  k < length (concat before) + length o ->
  contains (open_tag self) (skipn (k - length (concat before)) o) = true ->
  exists rest,
    events (tag_iterator self file_data tracker)
    = Seek k :: Readline k (skipn (k - length (concat before)) o)
      :: TryClaim k (fst (try_claim k tracker)) :: rest.
Proof.
  intros Hstart Hls Hlo Hhi Hopen.
  rewrite tag_iterator_events, Hstart, py_or_some.
  replace (skipn k file_data) with (skipn (k - 0) file_data)
    by now rewrite Nat.sub_0_r.
  rewrite (@lines_from_readlines k (readlines file_data) file_data 0 eq_refl)
    by lia.
  rewrite Hls, lines_from_inside by (simpl; lia). simpl Nat.add.
  rewrite seeking_open_cons, Hopen. eexists. reflexivity.
Qed.

End Generator.

Lemma iterable_gcs_step_witness :
  let s := mkState (mkFile wiki 0) false (OffsetRangeTracker_init 0 (length wiki)) in
  iterable_f_finished s = false
  /\ match _iterable_gcs s with
     | (es, Some line, s') =>
         es = [Readline (tell (f s)) line] /\ line <> []
         /\ unread (f s) = line ++ unread (f s')
         /\ tell (f s') = tell (f s) + length line
         /\ iterable_f_finished s' = false
     | (es, None, s') =>
         es = [Readline (tell (f s)) []] /\ unread (f s) = []
         /\ iterable_f_finished s' = true
         /\ _iterable_gcs s' = ([], None, s')
     end.
Proof.
  intros s. split; [reflexivity|].
  exact (@iterable_gcs_step OffsetRangeTracker s eq_refl).
Defined.

Lemma start_inside_line_witness :
  let tracker := OffsetRangeTracker_init 1 (length indented_file) in
  start_position tracker = Some 1
  /\ readlines indented_file = [] ++ ln "  <page>" :: [ln "A"; ln "  </page>"]
  /\ length (concat (@nil bytes)) < 1
  /\ 1 < length (concat (@nil bytes)) + length (ln "  <page>")
  /\ contains (open_tag page)
       (skipn (1 - length (concat (@nil bytes))) (ln "  <page>")) = true
  /\ exists rest,
       events (tag_iterator page indented_file tracker)
       = Seek 1
         :: Readline 1 (skipn (1 - length (concat (@nil bytes))) (ln "  <page>"))
         :: TryClaim 1 (fst (try_claim 1 tracker)) :: rest.
Proof.
  intros tracker.
  assert (H1 : start_position tracker = Some 1) by reflexivity.
  assert (H2 : readlines indented_file
               = [] ++ ln "  <page>" :: [ln "A"; ln "  </page>"])
    by reflexivity.
  assert (H3 : length (concat (@nil bytes)) < 1) by (simpl; lia).
  assert (H4 : 1 < length (concat (@nil bytes)) + length (ln "  <page>"))
    by (vm_compute; lia).
  assert (H5 : contains (open_tag page)
                 (skipn (1 - length (concat (@nil bytes))) (ln "  <page>")) = true)
    by reflexivity.
  repeat (split; [assumption|]).
  exact (@start_inside_line OffsetRangeTracker _ page indented_file tracker 1
           [] (ln "  <page>") [ln "A"; ln "  </page>"] H1 H2 H3 H4 H5).
Defined.
